(** * Lean input mode of vscode-lean: abbreviation expansion and hover lookup

    A shallow embedding of [src/input.ts]: the translation tables (JavaScript
    objects used as string-keyed maps), the resolution algorithm
    [findReplacement], the hover lookup [getAbbrevations] / [provideHover] and
    the per-editor state machine [TextEditorAbbrevHandler].

    Conventions of the embedding.
    - A JavaScript string is the list of its UTF-16 code units ([jsstring]);
      [length] is the [.length] of the source.
    - What a property read or [findReplacement] yields is a [Value]: [None]
      stands for both [undefined] and [null], which the source never tells
      apart; [Some (Str s)] is the string [s]; [Some (Member n)] is the member
      [n] of [Object.prototype] (a function, or the prototype itself for
      [__proto__]), which a read of a plain object yields for a name the object
      does not own.
    - A [Translations] object is the list of its own properties in the order a
      [for ... in] loop visits them (the members of [Object.prototype] are not
      enumerable); [tr_own] looks among them only, [tr_get] is the property
      read [obj[k]].
    - A host call that throws ([new Position] with a negative character) is an
      explicit [Throw] outcome carrying the handler as it was at that point. *)

From Stdlib Require Import String Ascii.
From Stdlib Require Import List Arith ZArith NArith Bool Lia.
From Stdlib Require Import Sorting.Sorted Sorting.Permutation.
From Equations Require Import Equations.
Import ListNotations.

(** ** Strings *)

Definition jschar := N.
Definition jsstring := list jschar.

(** Code units of an ASCII literal. *)
Definition u (s : string) : jsstring :=
  map N_of_ascii (list_ascii_of_string s).

Fixpoint jsstring_eqb (a b : jsstring) : bool :=
  match a, b with
  | [], [] => true
  | x :: a', y :: b' => N.eqb x y && jsstring_eqb a' b'
  | _, _ => false
  end.

(** [s.startsWith(searchString)] *)
Fixpoint startsWith (s searchString : jsstring) {struct searchString} : bool :=
  match searchString, s with
  | [], _ => true
  | x :: p, y :: s' => N.eqb x y && startsWith s' p
  | _ :: _, [] => false
  end.

(** The relative index of [String.prototype.slice]: negative counts from the
    end, and the result is clamped to [0, len]. *)
Definition relIndex (len : nat) (i : Z) : nat :=
  if (i <? 0)%Z then Z.to_nat (Z.max (Z.of_nat len + i) 0)
  else Nat.min (Z.to_nat i) len.

(** [s.slice(from, to)] *)
Definition slice (s : jsstring) (from to : Z) : jsstring :=
  let a := relIndex (length s) from in
  let b := relIndex (length s) to in
  firstn (b - a) (skipn a s).

(** [s.slice(from)] *)
Definition sliceFrom (s : jsstring) (from : Z) : jsstring :=
  skipn (relIndex (length s) from) s.

Definition len (s : jsstring) : Z := Z.of_nat (length s).

(** Truthiness of a [string | null]: only a non-empty string. *)
Definition truthyString (v : option jsstring) : bool :=
  match v with
  | Some (_ :: _) => true
  | _ => false
  end.

(** The names of the members of [Object.prototype]. *)
Definition objectPrototypeNames : list jsstring :=
  [ u "constructor"; u "__defineGetter__"; u "__defineSetter__";
    u "hasOwnProperty"; u "__lookupGetter__"; u "__lookupSetter__";
    u "isPrototypeOf"; u "propertyIsEnumerable"; u "toString"; u "valueOf";
    u "__proto__"; u "toLocaleString" ].

Definition isInherited (k : jsstring) : bool :=
  existsb (jsstring_eqb k) objectPrototypeNames.

(** A value other than [undefined] and [null]: a string, or the member of
    [Object.prototype] of that name. *)
Inductive Defined :=
| Str (s : jsstring)
| Member (name : jsstring).

Definition Value := option Defined.

(** Truthiness: a non-empty string, or an object. *)
Definition truthy (v : Value) : bool :=
  match v with
  | Some (Str (_ :: _)) => true
  | Some (Member _) => true
  | _ => false
  end.

(** [a === b] between a value and a string. *)
Definition strictEq (v : Value) (s : jsstring) : bool :=
  match v with
  | Some (Str w) => jsstring_eqb w s
  | _ => false
  end.

(** The string a value becomes in [v + s], as the engine of the host prints
    it: the source text of a built-in function, and [[object Object]] for the
    prototype that [__proto__] reads. The function [constructor] is
    [Object]. *)
Definition toPrimitiveString (v : Defined) : jsstring :=
  match v with
  | Str s => s
  | Member n =>
      if jsstring_eqb n (u "__proto__") then u "[object Object]"
      else if jsstring_eqb n (u "constructor")
           then u "function Object() { [native code] }"
           else u "function " ++ n ++ u "() { [native code] }"
  end.

(** ** Translation tables *)

Definition Translations := list (jsstring * jsstring).

Definition keys (o : Translations) : list jsstring := map fst o.

(** The own property [k] of [o], if there is one. *)
Fixpoint tr_own (o : Translations) (k : jsstring) : option jsstring :=
  match o with
  | [] => None
  | (k', v) :: o' => if jsstring_eqb k' k then Some v else tr_own o' k
  end.

(** [o[k]]: the own property, else the member of [Object.prototype] of that
    name, else [undefined]. *)
Definition tr_get (o : Translations) (k : jsstring) : Value :=
  match tr_own o k with
  | Some v => Some (Str v)
  | None => if isInherited k then Some (Member k) else None
  end.

(** Property keys that are array indices (the canonical decimal form of an
    integer below 2^32 - 1) are enumerated first, in ascending order; every
    other key follows in creation order. *)
Definition digitValue (c : jschar) : option N :=
  if (48 <=? c)%N && (c <=? 57)%N then Some (c - 48)%N else None.

Fixpoint decimalValue (acc : N) (s : jsstring) : option N :=
  match s with
  | [] => Some acc
  | c :: s' =>
      match digitValue c with
      | Some d => decimalValue (acc * 10 + d)%N s'
      | None => None
      end
  end.

Definition arrayIndex (k : jsstring) : option N :=
  match k with
  | [] => None
  | c :: r =>
      if N.eqb c 48 && negb (Nat.eqb (length r) 0) then None
      else match decimalValue 0 k with
           | Some n => if (n <? 4294967295)%N then Some n else None
           | None => None
           end
  end.

(** Place a new array-index key [n] among the properties. *)
Fixpoint insertIndexKey (n : N) (k v : jsstring) (o : Translations) : Translations :=
  match o with
  | [] => [(k, v)]
  | (k', v') :: o' =>
      match arrayIndex k' with
      | Some m => if (m <? n)%N then (k', v') :: insertIndexKey n k v o'
                  else (k, v) :: o
      | None => (k, v) :: o
      end
  end.

Fixpoint overwrite (o : Translations) (k v : jsstring) : Translations :=
  match o with
  | [] => []
  | (k', v') :: o' =>
      if jsstring_eqb k' k then (k', v) :: o' else (k', v') :: overwrite o' k v
  end.

Definition hasKey (o : Translations) (k : jsstring) : bool :=
  existsb (fun k' => jsstring_eqb k' k) (keys o).

(** [o[k] = v] on a plain object: an existing property keeps its place. *)
Definition tr_set (o : Translations) (k v : jsstring) : Translations :=
  if hasKey o k then overwrite o k v
  else match arrayIndex k with
       | Some n => insertIndexKey n k v o
       | None => o ++ [(k, v)]
       end.

(** [target[k] = v] as [Object.assign] does it. A target without own property
    [__proto__] hands that name to the setter of [Object.prototype], which
    ignores a string; every other name becomes or stays an own property. *)
Definition tr_assign (o : Translations) (k v : jsstring) : Translations :=
  if jsstring_eqb k (u "__proto__") && negb (hasKey o k) then o
  else tr_set o k v.

(** [Object.assign(target, source)] *)
Definition objectAssign (target source : Translations) : Translations :=
  fold_left (fun o kv => tr_assign o (fst kv) (snd kv)) source target.

(** [{ ...target, ...source }] onto an already built [target]: every own
    property of [source] is defined on the result. *)
Definition spread (target source : Translations) : Translations :=
  fold_left (fun o kv => tr_set o (fst kv) (snd kv)) source target.

(** [{ ...this.translations, ...this.customTranslations }] *)
Definition mergeTranslations (translations customTranslations : Translations)
  : Translations :=
  spread (spread [] translations) customTranslations.

(** ** Resolution: [LeanInputAbbreviator.findReplacement] *)

(** One turn of the [for (const abbrev in this.allTranslations)] loop. *)
Definition shortestExtensionStep (typedAbbrev : jsstring)
    (shortestExtension : option jsstring) (abbrev : jsstring) : option jsstring :=
  if startsWith abbrev typedAbbrev
     && (negb (truthyString shortestExtension)
         || match shortestExtension with
            | Some s => length abbrev <? length s
            | None => false
            end)
  then Some abbrev
  else shortestExtension.

Definition shortestExtensionLoop (allTranslations : Translations)
    (typedAbbrev : jsstring) : option jsstring :=
  fold_left (shortestExtensionStep typedAbbrev) (keys allTranslations) None.

Lemma slice_init_shorter (s : jsstring) :
  s <> [] -> length (slice s 0 (len s - 1)) < length s.
Proof.
  intros Hs. unfold slice, relIndex, len.
  destruct s as [|c r]; [congruence|].
  rewrite length_firstn, length_skipn.
  replace (Z.of_nat (length (c :: r)) - 1 <? 0)%Z with false
    by (symmetry; apply Z.ltb_ge; cbn [length]; lia).
  cbn [Z.ltb Z.compare Z.to_nat Nat.min]. cbn [length]. lia.
Qed.

#[local] Opaque slice len.

Equations? findReplacement (allTranslations : Translations) (typedAbbrev : jsstring)
  : Value by wf (length typedAbbrev) lt :=
  findReplacement allTranslations [] := None;
  findReplacement allTranslations (c :: r) :=
    if truthy (tr_get allTranslations (c :: r)) then tr_get allTranslations (c :: r)
    else
      match shortestExtensionLoop allTranslations (c :: r) with
      | Some (x :: ext) => tr_get allTranslations (x :: ext)
      | _ =>
          if truthyString (Some (c :: r)) then
            let prefixReplacement :=
              findReplacement allTranslations (slice (c :: r) 0 (len (c :: r) - 1)) in
            if truthy prefixReplacement then
              option_map
                (fun p => Str (toPrimitiveString p
                               ++ sliceFrom (c :: r) (len (c :: r) - 1)))
                prefixReplacement
            else None
          else None
      end.
Proof.
  all: apply (slice_init_shorter (c :: r)); discriminate.
Qed.

#[local] Transparent slice len.

(** ** Hover lookup: [LeanInputExplanationHover] *)

Record Position := { line : nat; character : nat }.

(** [pos.translate(0, characterDelta)] for a non-negative delta. *)
Definition translate (pos : Position) (characterDelta : nat) : Position :=
  {| line := line pos; character := character pos + characterDelta |}.

(** Every range the source builds has its start before its end on one line,
    so the reordering done by the [Range] constructor never applies. *)
Record Range := { start : Position; end_ : Position }.

(** A document is the list of its lines. *)
Definition TextDocument := list jsstring.

(** [document.getText(new Range(line, from, line, to))]: both ends are first
    clamped to the line (a line past the end of the document reads as empty). *)
Definition getTextInLine (doc : TextDocument) (ln from to : nat) : jsstring :=
  let l := nth ln doc [] in
  let a := Nat.min from (length l) in
  let b := Nat.min to (length l) in
  firstn (b - a) (skipn a l).

(** [document.getText(r)] for a range within one line. *)
Definition getText (doc : TextDocument) (r : Range) : jsstring :=
  getTextInLine doc (line (start r)) (character (start r)) (character (end_ r)).

(** [Array.prototype.join] *)
Fixpoint join (sep : jsstring) (l : list jsstring) : jsstring :=
  match l with
  | [] => []
  | [a] => a
  | a :: l' => a ++ sep ++ join sep l'
  end.

(** [abbrevs.sort((a, b) => a.length - b.length)]: the sort of an array is
    stable, so equal lengths keep their relative order. *)
Fixpoint insertByLength (a : jsstring) (l : list jsstring) : list jsstring :=
  match l with
  | [] => [a]
  | b :: l' => if length a <=? length b then a :: b :: l'
               else b :: insertByLength a l'
  end.

Fixpoint sortByLength (l : list jsstring) : list jsstring :=
  match l with
  | [] => []
  | a :: l' => insertByLength a (sortByLength l')
  end.

Module Hover.

Record t := {
  leader : jsstring;
  customTranslations : Translations;
  translations : Translations
}.

Record Hover := { contents : jsstring; range : Range }.

Definition getAbbrevations (this : t) (symbol : jsstring) : list jsstring :=
  let abbrevs :=
    fold_left
      (fun abbrevs k =>
         if strictEq (tr_get (customTranslations this) k) symbol
         then abbrevs ++ [k] else abbrevs)
      (keys (customTranslations this)) [] in
  fold_left
    (fun abbrevs k =>
       if truthy (tr_get (customTranslations this) k) then abbrevs
       else if strictEq (tr_get (translations this) k) symbol
            then abbrevs ++ [k] else abbrevs)
    (keys (translations this)) abbrevs.

(** The abbreviation list as the hover shows it. *)
Definition sortedAbbrevations (this : t) (symbol : jsstring) : list jsstring :=
  sortByLength (getAbbrevations this symbol).

Definition message (this : t) (symbol : jsstring) (abbrevs : list jsstring)
  : jsstring :=
  u "Type " ++ symbol ++ u " using "
    ++ join (u " or ") (map (fun a => leader this ++ a) abbrevs).

Definition provideHover (this : t) (document : TextDocument) (pos : Position)
  : option Hover :=
  let symbolRange := {| start := pos; end_ := translate pos 1 |} in
  let symbol := getText document symbolRange in
  let abbrevs := sortedAbbrevations this symbol in
  if 0 <? length abbrevs
  then Some {| contents := message this symbol abbrevs; range := symbolRange |}
  else None.

End Hover.

(** ** The editor as the handler sees it *)

Module Selection.
Record t := { anchor : Position; active : Position }.

Definition positionEqb (p q : Position) : bool :=
  Nat.eqb (line p) (line q) && Nat.eqb (character p) (character q).

Definition isEmpty (s : t) : bool := positionEqb (anchor s) (active s).
Definition isSingleLine (s : t) : bool := Nat.eqb (line (anchor s)) (line (active s)).

(** [new Selection(pos, pos)] *)
Definition at_ (pos : Position) : t := {| anchor := pos; active := pos |}.
End Selection.

(** One [builder.replace(range, value)]; [value] is [None] when the source
    passes [null]. *)
Record Replace := { location : Range; value : Value }.

(** [document] and [selections] belong to the host, which changes them between
    events. [decorations] is the set last given to [setDecorations]. [edits]
    lists the batches handed to [editor.edit], oldest first; [timers] the
    batches waiting in a [setTimeout(..., 0)] callback. *)
Record TextEditor := {
  document : TextDocument;
  selections : list Selection.t;
  decorations : list Range;
  edits : list (list Replace);
  timers : list (list Replace)
}.

Record LeanInputAbbreviator := {
  leader : jsstring;
  customTranslations : Translations;
  translations : Translations;
  allTranslations : Translations
}.

(** The fields the constructor (and every configuration change) computes. *)
Definition newLeanInputAbbreviator (ldr : jsstring)
    (custom base : Translations) : LeanInputAbbreviator :=
  let translations := objectAssign [] base in
  {| leader := ldr;
     customTranslations := custom;
     translations := translations;
     allTranslations := mergeTranslations translations custom |}.

Module RangeInfo.
Record t := {
  index : nat;
  selection : Selection.t;
  range : Range;
  text : jsstring
}.
End RangeInfo.

Record TextEditorAbbrevHandler := {
  active : bool;
  editor : TextEditor;
  abbreviator : LeanInputAbbreviator
}.

Definition newTextEditorAbbrevHandler (e : TextEditor) (a : LeanInputAbbreviator)
  : TextEditorAbbrevHandler :=
  {| active := false; editor := e; abbreviator := a |}.

Inductive completion :=
| Normal (h : TextEditorAbbrevHandler)
| Throw (h : TextEditorAbbrevHandler).

Definition setDecorations (e : TextEditor) (ranges : list Range) : TextEditor :=
  {| document := document e; selections := selections e;
     decorations := ranges; edits := edits e; timers := timers e |}.

Definition deactivate (this : TextEditorAbbrevHandler) : TextEditorAbbrevHandler :=
  {| active := false;
     editor := setDecorations (editor this) [];
     abbreviator := abbreviator this |}.

Definition setActive (this : TextEditorAbbrevHandler) (b : bool)
  : TextEditorAbbrevHandler :=
  {| active := b; editor := editor this; abbreviator := abbreviator this |}.

(** *** Regular expressions *)

Definition backslash : jschar := 92%N.

(** The class [\s] of a JavaScript regular expression. *)
Definition isWhiteSpace (c : jschar) : bool :=
  ((9 <=? c) && (c <=? 13) || (c =? 32) || (c =? 160) || (c =? 5760)
   || (8192 <=? c) && (c <=? 8202) || (c =? 8232) || (c =? 8233)
   || (c =? 8239) || (c =? 8287) || (c =? 12288) || (c =? 65279))%N.

(** [/\\\S*?$/.exec(s)]: the match starting leftmost; at a start position the
    pattern matches exactly when a backslash stands there and only
    non-whitespace follows up to the end. The result is [r[0]]. *)
Fixpoint execLeaderRegex (s : jsstring) : option jsstring :=
  match s with
  | [] => None
  | c :: s' =>
      if N.eqb c backslash && forallb (fun d => negb (isWhiteSpace d)) s'
      then Some s
      else execLeaderRegex s'
  end.

Definition isCloser (c : jschar) : bool :=
  (N.eqb c 41 || N.eqb c 125 || N.eqb c 10217)%N.

(** The alternative [[^{(]?[)}⟩]$] tried at the start of [s]. *)
Definition closerAtEnd (s : jsstring) : bool :=
  match s with
  | [b] => isCloser b
  | [a; b] => negb (N.eqb a 123 || N.eqb a 40) && isCloser b
  | _ => false
  end.

Fixpoint tails (s : jsstring) : list jsstring :=
  match s with
  | [] => [[]]
  | _ :: s' => s :: tails s'
  end.

(** [s.match(/^\s+|[^{(]?[)}⟩]$/)] is not [null]. *)
Definition matchesCompleting (s : jsstring) : bool :=
  match s with
  | c :: _ => isWhiteSpace c
  | [] => false
  end
  || existsb closerAtEnd (tails s).

(** *** [TextEditorAbbrevHandler] *)

(** [r.end.character - r.start.character] *)
Definition rangeSize (r : Range) : Z :=
  (Z.of_nat (character (end_ r)) - Z.of_nat (character (start r)))%Z.

(** The body of the [for] loop of [getRangeInfo], from index [i] on. [None]
    is the exception of [new Range(line, 0, line, character)] on a negative
    [character]. [character - s.length] is never negative, [s] being part of
    the text before [character]. *)
Fixpoint rangeInfoLoop (doc : TextDocument) (incrCursor : Z) (i : nat)
    (sels : list Selection.t) : option (list RangeInfo.t) :=
  match sels with
  | [] => Some []
  | selection :: rest =>
      let ln := line (Selection.active selection) in
      let character := (Z.of_nat (character (Selection.active selection)) + incrCursor)%Z in
      if (character <? 0)%Z then None
      else
        let character := Z.to_nat character in
        let beforeCursor := getTextInLine doc ln 0 character in
        match execLeaderRegex beforeCursor with
        | None => rangeInfoLoop doc incrCursor (S i) rest
        | Some s =>
            option_map
              (cons {| RangeInfo.index := i;
                       RangeInfo.selection := selection;
                       RangeInfo.range :=
                         {| start := {| line := ln; character := character - length s |};
                            end_ := {| line := ln; character := character |} |};
                       RangeInfo.text := s |})
              (rangeInfoLoop doc incrCursor (S i) rest)
        end
  end.

Definition getRangeInfo (this : TextEditorAbbrevHandler) (incrCursor : Z)
  : option (list RangeInfo.t) :=
  if negb (active this) then Some []
  else
    let selections := selections (editor this) in
    if existsb (fun s => negb (Selection.isSingleLine s) || negb (Selection.isEmpty s))
               selections
    then Some []
    else rangeInfoLoop (document (editor this)) incrCursor 0 selections.

(** The glyph pairs of [hackyReplacements]. *)
Definition curlyPair : jsstring := [10627; 10628]%N.   (* U+2983 U+2984 *)
Definition squarePair : jsstring := [10214; 10215]%N.  (* U+27E6 U+27E7 *)
Definition anglePair : jsstring := [10216; 10217]%N.   (* U+27E8 U+27E9 *)

Record HackyReplacement := { repl : jsstring; right : option jsstring }.

(** The three keys differ in their last two characters, so the object literal
    holds exactly these three properties. *)
Definition hackyReplacements (ldr : jsstring) : list (jsstring * HackyReplacement) :=
  [ (ldr ++ u "{{", {| repl := curlyPair; right := Some (u "}}") |});
    (ldr ++ u "[[", {| repl := squarePair; right := Some (u "]]") |});
    (ldr ++ u "<>", {| repl := anglePair; right := None |}) ].

(** [hackyReplacements[ri.text]]. The text of a span starts with a backslash,
    which no name of a member of [Object.prototype] does, so this read finds
    own properties only. *)
Fixpoint hackyLookup (o : list (jsstring * HackyReplacement)) (k : jsstring)
  : option HackyReplacement :=
  match o with
  | [] => None
  | (k', v) :: o' => if jsstring_eqb k' k then Some v else hackyLookup o' k
  end.

(** An entry [[ri.index, range, repl, pos]] of [replacements] in [update]. *)
Record BracketEdit := {
  be_index : nat;
  be_range : Range;
  be_repl : jsstring;
  be_pos : Position
}.

(** [(right && right.length) || 0] *)
Definition rightLength (right : option jsstring) : nat :=
  match right with
  | Some r => length r
  | None => 0
  end.

(** The first loop of [update]: the replacements collected, and [ris] with the
    expanded spans reset to an empty range after the opening glyph. *)
Fixpoint updateLoop (doc : TextDocument) (ldr : jsstring) (ris : list RangeInfo.t)
  : list BracketEdit * list RangeInfo.t :=
  match ris with
  | [] => ([], [])
  | ri :: rest =>
      let (replacements, ris') := updateLoop doc ldr rest in
      match hackyLookup (hackyReplacements ldr) (RangeInfo.text ri) with
      | None => (replacements, ri :: ris')
      | Some replacement =>
          let rend := end_ (RangeInfo.range ri) in
          let skip :=
            if truthyString (right replacement) then
              let t := getText doc
                         {| start := rend;
                            end_ := translate rend (rightLength (right replacement)) |} in
              negb (strictEq (option_map Str (right replacement)) t)
            else false in
          if skip then (replacements, ri :: ris')
          else
            let pos := translate (start (RangeInfo.range ri)) 1 in
            let range :=
              {| start := start (RangeInfo.range ri);
                 end_ := translate rend (rightLength (right replacement)) |} in
            ({| be_index := RangeInfo.index ri; be_range := range;
                be_repl := repl replacement; be_pos := pos |} :: replacements,
             {| RangeInfo.index := RangeInfo.index ri;
                RangeInfo.selection := RangeInfo.selection ri;
                RangeInfo.range := {| start := pos; end_ := pos |};
                RangeInfo.text := [] |} :: ris')
      end
  end.

(** [ss[i] = s] on a copy of the selections; [i] is always the index of an
    existing selection here. *)
Fixpoint setNth (ss : list Selection.t) (i : nat) (s : Selection.t) : list Selection.t :=
  match ss, i with
  | [], _ => []
  | _ :: ss', 0 => s :: ss'
  | x :: ss', S j => x :: setNth ss' j s
  end.

(** The callback given to [editor.edit] in [update]; it runs at once. *)
Definition bracketEdit (e : TextEditor) (replacements : list BracketEdit) : TextEditor :=
  {| document := document e;
     selections :=
       fold_left (fun ss r => setNth ss (be_index r) (Selection.at_ (be_pos r)))
                 replacements (selections e);
     decorations := decorations e;
     edits := edits e ++
              [map (fun r => {| location := be_range r;
                                value := Some (Str (be_repl r)) |})
                   replacements];
     timers := timers e |}.

Definition update (this : TextEditorAbbrevHandler) (incrCursor : Z) : completion :=
  match getRangeInfo this incrCursor with
  | None => Throw this
  | Some [] => Normal (deactivate this)
  | Some ris =>
      let (replacements, ris') :=
        updateLoop (document (editor this)) (leader (abbreviator this)) ris in
      let e := if negb (Nat.eqb (length replacements) 0)
               then bracketEdit (editor this) replacements
               else editor this in
      Normal {| active := active this;
                editor := setDecorations e (map RangeInfo.range ris');
                abbreviator := abbreviator this |}
  end.

(** The [for] loop of [convert]. *)
Definition convertLoop (a : LeanInputAbbreviator) (ris : list RangeInfo.t)
  : list Replace :=
  flat_map
    (fun ri =>
       if (rangeSize (RangeInfo.range ri) <? 2)%Z then []
       else
         let abbreviation := sliceFrom (RangeInfo.text ri) 1 in
         let replacement := findReplacement (allTranslations a) abbreviation in
         [{| location := RangeInfo.range ri; value := replacement |}])
    ris.

(** [setTimeout(async () => { await this.editor.edit(...) }, 0)] *)
Definition setTimeoutEdit (e : TextEditor) (replacements : list Replace) : TextEditor :=
  {| document := document e; selections := selections e;
     decorations := decorations e; edits := edits e;
     timers := timers e ++ [replacements] |}.

Definition convert (this : TextEditorAbbrevHandler) : completion :=
  match getRangeInfo this 0 with
  | None => Throw this
  | Some [] => Normal (deactivate this)
  | Some ris =>
      let replacements := convertLoop (abbreviator this) ris in
      let e := if negb (Nat.eqb (length replacements) 0)
               then setTimeoutEdit (editor this) replacements
               else editor this in
      Normal (deactivate {| active := active this; editor := e;
                            abbreviator := abbreviator this |})
  end.

Module Change.
(** A [TextDocumentContentChangeEvent]; the handler reads its [text] only. *)
Record t := { text : jsstring }.
End Change.

(** [ev.contentChanges] *)
Definition TextDocumentChangeEvent := list Change.t.

Definition onChanged (this : TextEditorAbbrevHandler) (ev : TextDocumentChangeEvent)
  : completion :=
  match ev with
  | [] => Normal this
  | change :: _ =>
      if negb (active this) then
        if jsstring_eqb (Change.text change) (leader (abbreviator this))
        then update (setActive this true) 1
        else Normal this
      else
        if jsstring_eqb (Change.text change) (leader (abbreviator this)) then
          match convert this with
          | Normal this' => update (setActive this' true) 0
          | Throw this' => Throw this'
          end
        else if matchesCompleting (Change.text change) then convert this
        else if jsstring_eqb (Change.text change) [] then update this (-1)
        else update this (len (Change.text change))
  end.

Definition onSelectionChanged (this : TextEditorAbbrevHandler) : completion :=
  update this 0.


(** ** Vocabulary of the properties and sample states *)

(** [k] is the shortest key of [T] that starts with [A], the first such key in
    iteration order among those of that length. *)
Definition isShortestExtension (T : Translations) (A k : jsstring) : Prop :=
  exists l1 l2,
    keys T = l1 ++ k :: l2 /\
    startsWith k A = true /\
    (forall k', In k' l1 -> startsWith k' A = true -> length k < length k') /\
    (forall k', In k' l2 -> startsWith k' A = true -> length k <= length k').

(** [P] is [A] with at least one character removed from its end. *)
Definition properPrefix (P A : jsstring) : Prop :=
  startsWith A P = true /\ P <> A.

(** The same body with the depth of the recursion counted: [None] is a budget
    of nested calls used up before an answer. *)
Fixpoint findReplacementFuel (fuel : nat) (allTranslations : Translations)
    (typedAbbrev : jsstring) : option Value :=
  match fuel with
  | 0 => None
  | S fuel' =>
      match typedAbbrev with
      | [] => Some None
      | _ :: _ =>
          if truthy (tr_get allTranslations typedAbbrev)
          then Some (tr_get allTranslations typedAbbrev)
          else
            match shortestExtensionLoop allTranslations typedAbbrev with
            | Some (x :: ext) => Some (tr_get allTranslations (x :: ext))
            | _ =>
                if truthyString (Some typedAbbrev) then
                  match findReplacementFuel fuel' allTranslations
                          (slice typedAbbrev 0 (len typedAbbrev - 1)) with
                  | None => None
                  | Some prefixReplacement =>
                      Some (if truthy prefixReplacement then
                              option_map
                                (fun p => Str (toPrimitiveString p
                                               ++ sliceFrom typedAbbrev
                                                    (len typedAbbrev - 1)))
                                prefixReplacement
                            else None)
                  end
                else Some None
            end
      end
  end.

Definition tableAbAbc : Translations := [(u "ab", u "X"); (u "abc", u "Y")].

Definition tableConstructorx : Translations := [(u "constructorx", u "Y")].

Definition shorterEq (a b : jsstring) : Prop := length a <= length b.

(** The order in which the hover visits the abbreviations of the flattened
    table: the keys of the override table, then the keys of the base table
    that the override table does not have. *)
Definition collectionOrder (custom base : Translations) : list jsstring :=
  keys custom ++ filter (fun k => negb (hasKey custom k)) (keys base).

Definition noEmptySymbol (o : Translations) : Prop :=
  forall k, In k (keys o) -> truthy (tr_get o k) = true.

(** No key of the table is the name of a member of [Object.prototype]. *)
Definition noMemberKey (o : Translations) : Prop :=
  forall k, In k (keys o) -> isInherited k = false.

(** The lookup as the specification words it: the abbreviations of the
    flattened table that map to [symbol], shortest first, those of one length
    in the iteration order of that table. *)
Definition abbreviationsFor (table : Translations) (symbol : jsstring)
  : list jsstring :=
  sortByLength (filter (fun k => strictEq (tr_get table k) symbol) (keys table)).

(** The symbol the hover reads at [pos]. *)
Definition symbolAt (doc : TextDocument) (pos : Position) : jsstring :=
  getText doc {| start := pos; end_ := translate pos 1 |}.

Definition hoverAB : Hover.t :=
  {| Hover.leader := [backslash];
     Hover.customTranslations := [(u "a", u "X")];
     Hover.translations := [(u "b", u "X")] |}.

Definition hoverAbAB : Hover.t :=
  {| Hover.leader := [backslash];
     Hover.customTranslations := [(u "ab", u "X"); (u "a", u "X")];
     Hover.translations := [(u "b", u "X"); (u "a", u "Y")] |}.

Definition hoverAbA : Hover.t :=
  {| Hover.leader := [backslash];
     Hover.customTranslations := [(u "ab", u "X"); (u "a", u "X")];
     Hover.translations := [] |}.

Definition outcome (c : completion) : TextEditorAbbrevHandler :=
  match c with
  | Normal h => h
  | Throw h => h
  end.

(** Inactive means undecorated. *)
Definition undecoratedWhenInactive (h : TextEditorAbbrevHandler) : Prop :=
  active h = false -> decorations (editor h) = [].

(** What can happen to a handler: the host changes the buffer, the cursors or
    its queues of edits (never the decorations of this handler), the
    configuration changes, or one of the handler's entry points runs. *)
Inductive step : TextEditorAbbrevHandler -> TextEditorAbbrevHandler -> Prop :=
| step_host h e :
    decorations e = decorations (editor h) ->
    step h {| active := active h; editor := e; abbreviator := abbreviator h |}
| step_config h a :
    step h {| active := active h; editor := editor h; abbreviator := a |}
| step_changed h ev : step h (outcome (onChanged h ev))
| step_selection h : step h (outcome (onSelectionChanged h))
| step_convert h : step h (outcome (convert h)).

Inductive reachable : TextEditorAbbrevHandler -> Prop :=
| reachable_new e a :
    decorations e = [] -> reachable (newTextEditorAbbrevHandler e a)
| reachable_step h h' : reachable h -> step h h' -> reachable h'.

Definition pos (l c : nat) : Position := {| line := l; character := c |}.

Definition span (l from to : nat) : Range :=
  {| start := pos l from; end_ := pos l to |}.

Definition abbreviatorA : LeanInputAbbreviator :=
  newLeanInputAbbreviator [backslash] [] [(u "a", u "X")].

(** The buffer [\zz ] just after the space was typed: the cursor is still
    before it, and the span [\zz] is tracked and underlined. *)
Definition typedZZ : TextEditorAbbrevHandler :=
  {| active := true;
     editor := {| document := [u "\zz "];
                  selections := [Selection.at_ (pos 0 3)];
                  decorations := [span 0 0 3];
                  edits := [];
                  timers := [] |};
     abbreviator := abbreviatorA |}.

(** The span [\zz] tracked while the text [zz] is selected. *)
Definition selectedZZ : TextEditorAbbrevHandler :=
  {| active := true;
     editor := {| document := [u "\zz"];
                  selections := [{| Selection.anchor := pos 0 1;
                                    Selection.active := pos 0 3 |}];
                  decorations := [span 0 0 3];
                  edits := [];
                  timers := [] |};
     abbreviator := abbreviatorA |}.

(** Two cursors, each after [\a], and the letter [b] typed at both: one event
    with two content changes. *)
Definition twoCursors : TextEditorAbbrevHandler :=
  {| active := true;
     editor := {| document := [u "\ab"; u "\ab"];
                  selections := [Selection.at_ (pos 0 2); Selection.at_ (pos 1 2)];
                  decorations := [span 0 0 2; span 1 0 2];
                  edits := [];
                  timers := [] |};
     abbreviator := abbreviatorA |}.

(** The text [getRangeInfo] reads for a cursor: its line up to the cursor
    moved by [incrCursor]. *)
Definition beforeCursor (doc : TextDocument) (sel : Selection.t) (incrCursor : Z)
  : jsstring :=
  getTextInLine doc (line (Selection.active sel)) 0
    (Z.to_nat (Z.of_nat (character (Selection.active sel)) + incrCursor)).

(** [t] ends with a backslash followed by non-whitespace characters only. *)
Definition endsWithLeaderSpan (t : jsstring) : Prop :=
  exists pre suf,
    t = pre ++ backslash :: suf /\ Forall (fun d => isWhiteSpace d = false) suf.

(** The leader is a comma; the buffer [\a,] just after the comma was typed. *)
Definition commaLeader : TextEditorAbbrevHandler :=
  {| active := false;
     editor := {| document := [u "\a,"];
                  selections := [Selection.at_ (pos 0 2)];
                  decorations := [];
                  edits := [];
                  timers := [] |};
     abbreviator := newLeanInputAbbreviator (u ",") [] [(u "a", u "X")] |}.

(** An inactive handler whose leader is [,\], on the buffer [,\] where that
    leader has just been typed, the cursor still before it. *)
Definition commaBackslashLeader : TextEditorAbbrevHandler :=
  {| active := false;
     editor := {| document := [u ",\"];
                  selections := [Selection.at_ (pos 0 0)];
                  decorations := [];
                  edits := [];
                  timers := [] |};
     abbreviator := newLeanInputAbbreviator (u ",\") [] [(u "a", u "X")] |}.

(** The decision of the loop of [update] for one span. *)
Definition bracketFor (doc : TextDocument) (ldr : jsstring) (ri : RangeInfo.t)
  : option BracketEdit :=
  match hackyLookup (hackyReplacements ldr) (RangeInfo.text ri) with
  | None => None
  | Some replacement =>
      let rend := end_ (RangeInfo.range ri) in
      if (if truthyString (right replacement) then
            negb (strictEq (option_map Str (right replacement))
                    (getText doc
                       {| start := rend;
                          end_ := translate rend (rightLength (right replacement)) |}))
          else false)
      then None
      else Some {| be_index := RangeInfo.index ri;
                   be_range :=
                     {| start := start (RangeInfo.range ri);
                        end_ := translate rend (rightLength (right replacement)) |};
                   be_repl := repl replacement;
                   be_pos := translate (start (RangeInfo.range ri)) 1 |}
  end.

Definition resetSpan (ri : RangeInfo.t) (b : BracketEdit) : RangeInfo.t :=
  {| RangeInfo.index := RangeInfo.index ri;
     RangeInfo.selection := RangeInfo.selection ri;
     RangeInfo.range := {| start := be_pos b; end_ := be_pos b |};
     RangeInfo.text := [] |}.

Definition moveCursors (ss : list Selection.t) (replacements : list BracketEdit)
  : list Selection.t :=
  fold_left (fun ss r => setNth ss (be_index r) (Selection.at_ (be_pos r)))
            replacements ss.

(** [update] has replaced [replaced] by [glyphs] for the span [ri], in an edit
    handed to the editor during the call, and has put the cursor of the span
    one character after the start of the span, there with an empty
    decoration. *)
Definition expandedBy (h h' : TextEditorAbbrevHandler) (ri : RangeInfo.t)
    (glyphs : jsstring) (replaced : Range) : Prop :=
  (exists batch,
      edits (editor h') = edits (editor h) ++ [batch]
      /\ In {| location := replaced; value := Some (Str glyphs) |} batch)
  /\ nth_error (selections (editor h')) (RangeInfo.index ri)
     = Some (Selection.at_ (translate (start (RangeInfo.range ri)) 1))
  /\ In {| start := translate (start (RangeInfo.range ri)) 1;
           end_ := translate (start (RangeInfo.range ri)) 1 |}
        (decorations (editor h')).

(** [update] leaves the span [ri] alone: every replace that the call hands to
    the editor belongs to the span of another cursor and starts there, not
    where [ri] starts; the call has no replacement for the cursor of the span,
    has not moved that cursor and still underlines the span. *)
Definition leftAlone (h h' : TextEditorAbbrevHandler) (ris : list RangeInfo.t)
    (ri : RangeInfo.t) : Prop :=
  (exists added,
      edits (editor h') = edits (editor h) ++ added
      /\ forall batch r,
           In batch added -> In r batch ->
           start (location r) <> start (RangeInfo.range ri)
           /\ exists ri',
                In ri' ris
                /\ RangeInfo.index ri' <> RangeInfo.index ri
                /\ start (location r) = start (RangeInfo.range ri'))
  /\ (forall b,
        In b (fst (updateLoop (document (editor h)) (leader (abbreviator h)) ris)) ->
        be_index b <> RangeInfo.index ri)
  /\ nth_error (selections (editor h')) (RangeInfo.index ri)
     = nth_error (selections (editor h)) (RangeInfo.index ri)
  /\ In (RangeInfo.range ri) (decorations (editor h')).

(** The two characters after the end of the span. *)
Definition closingText (h : TextEditorAbbrevHandler) (ri : RangeInfo.t) : jsstring :=
  getText (document (editor h))
          {| start := end_ (RangeInfo.range ri);
             end_ := translate (end_ (RangeInfo.range ri)) 2 |}.

(** A handler tracking one span on the line [line], the cursor still before
    the character typed last. *)
Definition tracking (ln : jsstring) (cursor : nat) : TextEditorAbbrevHandler :=
  {| active := true;
     editor := {| document := [ln];
                  selections := [Selection.at_ (pos 0 cursor)];
                  decorations := [span 0 0 cursor];
                  edits := [];
                  timers := [] |};
     abbreviator := abbreviatorA |}.

Definition spanOf (txt : jsstring) (cursor : nat) : RangeInfo.t :=
  {| RangeInfo.index := 0;
     RangeInfo.selection := Selection.at_ (pos 0 cursor);
     RangeInfo.range := span 0 0 (length txt);
     RangeInfo.text := txt |}.

(** ** Vocabulary of the further properties *)

(** [s] begins with a whitespace character. *)
Definition startsWithWhiteSpace (s : jsstring) : bool :=
  match s with
  | c :: _ => isWhiteSpace c
  | [] => false
  end.

(** [s] ends with one of [)], [}] and U+27E9. *)
Definition endsWithCloser (s : jsstring) : bool :=
  match s with
  | [] => false
  | _ :: _ => isCloser (last s 0%N)
  end.

(** The abbreviation tables of the examples: Greek letters, and an override
    of [a]. *)
Definition greekBase : Translations :=
  [(u "a", u "A"); (u "alpha", u "A"); (u "b", u "B")].

Definition greekCustom : Translations := [(u "a", u "Z"); (u "g", u "G")].

(** A base table that owns the key [__proto__], as [JSON.parse] builds it. *)
Definition protoBase : Translations :=
  [(u "a", u "A"); (u "__proto__", u "P"); (u "b", u "B")].

(** One replace per span of two or more characters, in the order of the
    spans: the range of the span, replaced by what [findReplacement] returns
    for the text after the first character. *)
Definition convertBatch (a : LeanInputAbbreviator) (ris : list RangeInfo.t)
  : list Replace :=
  map (fun ri => {| location := RangeInfo.range ri;
                    value := findReplacement (allTranslations a)
                                             (tl (RangeInfo.text ri)) |})
      (filter (fun ri => 2 <=? length (RangeInfo.text ri)) ris).

(** The buffer [\], where the backslash has just been typed and the cursor
    still stands before it. *)
Definition backslashTyped : TextEditor :=
  {| document := [u "\"];
     selections := [Selection.at_ (pos 0 0)];
     decorations := [];
     edits := [];
     timers := [] |}.

(** A new handler on that buffer, after the change event of the backslash. *)
Definition afterBackslash : TextEditorAbbrevHandler :=
  outcome (onChanged (newTextEditorAbbrevHandler backslashTyped abbreviatorA)
                     [{| Change.text := [backslash] |}]).

(** The log [new] is the log [old] with at most one batch added, and that
    batch holds at least one replace. *)
Definition grewBy (old new : list (list Replace)) : Prop :=
  exists l, new = old ++ l /\ length l <= 1 /\ Forall (fun b => b <> []) l.

(** Some cursor of the handler stands at the start of its line. *)
Definition cursorAtLineStart (h : TextEditorAbbrevHandler) : Prop :=
  exists s, In s (selections (editor h)) /\ character (Selection.active s) = 0.

Definition allSelectionsEmpty (h : TextEditorAbbrevHandler) : Prop :=
  forall s, In s (selections (editor h)) -> Selection.isEmpty s = true.

(** The span is none of the three keys of [hackyReplacements]. *)
Definition noBracketKey (ldr : jsstring) (ri : RangeInfo.t) : Prop :=
  RangeInfo.text ri <> ldr ++ u "{{"
  /\ RangeInfo.text ri <> ldr ++ u "[["
  /\ RangeInfo.text ri <> ldr ++ u "<>".

(** The buffer [\] with the cursor at the start of the line, as a deletion of
    the backslash finds it before the cursor has moved. *)
Definition atLineStart : TextEditorAbbrevHandler :=
  {| active := true;
     editor := {| document := [u "x"];
                  selections := [Selection.at_ (pos 0 0)];
                  decorations := [span 0 0 1];
                  edits := [];
                  timers := [] |};
     abbreviator := abbreviatorA |}.

(** The buffer [ab \] just after its backslash was deleted: the line is [ab ]
    and the cursor, not yet moved, still stands at column 4. *)
Definition spanDeleted : TextEditorAbbrevHandler :=
  {| active := true;
     editor := {| document := [u "ab "];
                  selections := [Selection.at_ (pos 0 4)];
                  decorations := [span 0 3 4];
                  edits := [];
                  timers := [] |};
     abbreviator := abbreviatorA |}.

(** A hover over the tables [greekBase] and [greekCustom]. *)
Definition greekHover : Hover.t :=
  {| Hover.leader := [backslash];
     Hover.customTranslations := greekCustom;
     Hover.translations := greekBase |}.

(** Every symbol of the table is at least two code units long. *)
Definition longSymbols (o : Translations) : Prop :=
  forall k v, In (k, v) o -> 2 <= length v.

(** * Properties *)

(** ** Strings and tables *)

Lemma jsstring_eqb_eq (a b : jsstring) : jsstring_eqb a b = true <-> a = b.
Proof.
  revert b. induction a as [|x a IH]; intros [|y b]; cbn; split; try easy.
  - intros H. apply andb_true_iff in H as [Hx Hab].
    apply N.eqb_eq in Hx. apply IH in Hab. congruence.
  - intros H. injection H as -> ->. rewrite N.eqb_refl. cbn. now apply IH.
Qed.

Lemma jsstring_eqb_refl (a : jsstring) : jsstring_eqb a a = true.
Proof. now apply jsstring_eqb_eq. Qed.

Lemma jsstring_eqb_neq (a b : jsstring) : jsstring_eqb a b = false <-> a <> b.
Proof.
  split.
  - intros H E. apply jsstring_eqb_eq in E. congruence.
  - intros H. destruct (jsstring_eqb a b) eqn:E; [|reflexivity].
    apply jsstring_eqb_eq in E. contradiction.
Qed.

Lemma jsstring_eqb_app (p a b : jsstring) :
  jsstring_eqb (p ++ a) (p ++ b) = jsstring_eqb a b.
Proof.
  induction p as [|x p IH]; cbn; [reflexivity|].
  now rewrite N.eqb_refl.
Qed.

Lemma startsWith_prefix (s p : jsstring) :
  startsWith s p = true <-> exists t, s = p ++ t.
Proof.
  revert s. induction p as [|x p IH]; intros s; cbn.
  - split; [intros _; now exists s | reflexivity].
  - destruct s as [|y s].
    + split; [discriminate | intros [t Ht]; discriminate].
    + rewrite andb_true_iff, N.eqb_eq, IH. split.
      * intros [-> [t ->]]. now exists t.
      * intros [t Ht]. injection Ht as -> ->. split; [reflexivity | now exists t].
Qed.

Lemma startsWith_refl (s : jsstring) : startsWith s s = true.
Proof. apply startsWith_prefix. exists []. now rewrite app_nil_r. Qed.

Lemma startsWith_length (s p : jsstring) :
  startsWith s p = true -> length p <= length s.
Proof.
  intros H. apply startsWith_prefix in H as [t ->]. rewrite length_app. lia.
Qed.

Lemma startsWith_same_length (s p : jsstring) :
  startsWith s p = true -> length s <= length p -> s = p.
Proof.
  intros H Hl. apply startsWith_prefix in H as [t ->].
  rewrite length_app in Hl. destruct t; [now rewrite app_nil_r | cbn in Hl; lia].
Qed.

Lemma slice_removelast (s : jsstring) :
  s <> [] -> slice s 0 (len s - 1) = removelast s.
Proof.
  intros Hs. rewrite removelast_firstn_len.
  unfold slice, relIndex, len.
  assert (0 < length s) by (destruct s; [congruence | cbn; lia]).
  replace (Z.of_nat (length s) - 1 <? 0)%Z with false
    by (symmetry; apply Z.ltb_ge; lia).
  cbn [Z.ltb Z.compare Z.to_nat Nat.min skipn].
  f_equal. lia.
Qed.

Lemma sliceFrom_last (s : jsstring) :
  s <> [] -> sliceFrom s (len s - 1) = [last s 0%N].
Proof.
  intros Hs. unfold sliceFrom, relIndex, len.
  assert (0 < length s) by (destruct s; [congruence | cbn; lia]).
  replace (Z.of_nat (length s) - 1 <? 0)%Z with false
    by (symmetry; apply Z.ltb_ge; lia).
  replace (Nat.min (Z.to_nat (Z.of_nat (length s) - 1)) (length s))
    with (pred (length s)) by lia.
  destruct (exists_last Hs) as [s' [c ->]].
  rewrite last_last, length_app. cbn [length].
  replace (pred (length s' + 1)) with (length s') by lia.
  now rewrite skipn_app, skipn_all, Nat.sub_diag.
Qed.

Lemma tr_own_some_key (o : Translations) (k v : jsstring) :
  tr_own o k = Some v -> In k (keys o).
Proof.
  induction o as [|[k' v'] o IH]; cbn; [discriminate|].
  destruct (jsstring_eqb k' k) eqn:E.
  - apply jsstring_eqb_eq in E. now left.
  - intros H. right. now apply IH.
Qed.

Lemma tr_own_none_key (o : Translations) (k : jsstring) :
  tr_own o k = None <-> ~ In k (keys o).
Proof.
  induction o as [|[k' v'] o IH]; cbn; [tauto|].
  destruct (jsstring_eqb k' k) eqn:E.
  - apply jsstring_eqb_eq in E. split; [discriminate | intros H; exfalso; auto].
  - apply jsstring_eqb_neq in E. rewrite IH. tauto.
Qed.

Lemma tr_own_key_some (o : Translations) (k : jsstring) :
  In k (keys o) -> exists v, tr_own o k = Some v.
Proof.
  intros H. destruct (tr_own o k) eqn:E; [eauto|].
  apply tr_own_none_key in E. contradiction.
Qed.

Lemma tr_get_own (o : Translations) (k v : jsstring) :
  tr_own o k = Some v -> tr_get o k = Some (Str v).
Proof. intros H. unfold tr_get. now rewrite H. Qed.

Lemma tr_get_str (o : Translations) (k v : jsstring) :
  tr_get o k = Some (Str v) <-> tr_own o k = Some v.
Proof.
  unfold tr_get. destruct (tr_own o k) as [w|].
  - split; congruence.
  - destruct (isInherited k); split; discriminate.
Qed.

Lemma tr_get_none (o : Translations) (k : jsstring) :
  tr_get o k = None <-> tr_own o k = None /\ isInherited k = false.
Proof.
  unfold tr_get. destruct (tr_own o k) as [w|].
  - split; [discriminate | intros [H _]; discriminate].
  - destruct (isInherited k); split; try discriminate; try tauto.
    intros [_ H]. discriminate.
Qed.

Lemma tr_get_key (o : Translations) (k : jsstring) :
  In k (keys o) -> exists v, tr_get o k = Some (Str v).
Proof.
  intros H. destruct (tr_own_key_some o k H) as [v Hv].
  exists v. now apply tr_get_own.
Qed.

Lemma tr_get_not_own (o : Translations) (k : jsstring) :
  tr_own o k = None ->
  tr_get o k = if isInherited k then Some (Member k) else None.
Proof. intros H. unfold tr_get. now rewrite H. Qed.

(** ** The resolution algorithm *)

(** [findReplacement] on a non-empty abbreviation, with the two slices
    written as [removelast] and [last]. *)
Lemma findReplacement_nonempty (T : Translations) (A : jsstring) :
  A <> [] ->
  findReplacement T A =
    if truthy (tr_get T A) then tr_get T A
    else match shortestExtensionLoop T A with
         | Some (x :: ext) => tr_get T (x :: ext)
         | _ => match findReplacement T (removelast A) with
                | Some v =>
                    if truthy (Some v)
                    then Some (Str (toPrimitiveString v ++ [last A 0%N]))
                    else None
                | None => None
                end
         end.
Proof.
  intros HA. destruct A as [|c r]; [congruence|].
  rewrite findReplacement_equation_2.
  rewrite slice_removelast, sliceFrom_last by discriminate.
  destruct (truthy (tr_get T (c :: r))); [reflexivity|].
  destruct (shortestExtensionLoop T (c :: r)) as [[|x ext]|];
    cbn [truthyString]; cbv zeta;
    destruct (findReplacement T (removelast (c :: r))) as [v|];
    try reflexivity; destruct (truthy (Some v)); reflexivity.
Qed.

Lemma isShortestExtension_unique (T : Translations) (A k k' : jsstring) :
  isShortestExtension T A k -> isShortestExtension T A k' -> k' = k.
Proof.
  intros (l1 & l2 & E & Hk & Hb & Ha) (m1 & m2 & E' & Hk' & Hb' & Ha').
  rewrite E in E'. apply app_eq_app in E' as [l [[E1 E2] | [E1 E2]]].
  - destruct l as [|x l]; cbn in E2.
    + now injection E2.
    + injection E2 as Ex Em. subst x m2.
      assert (length k < length k') by (apply Hb; [rewrite E1; apply in_elt | easy]).
      assert (length k' <= length k) by (apply Ha'; [apply in_elt | easy]).
      lia.
  - destruct l as [|x l]; cbn in E2.
    + now injection E2.
    + injection E2 as Ex Em. subst x l2.
      assert (length k' < length k) by (apply Hb'; [rewrite E1; apply in_elt | easy]).
      assert (length k <= length k') by (apply Ha; [apply in_elt | easy]).
      lia.
Qed.

(** The state of the loop after the keys [l]. *)
Lemma shortestExtension_fold (A : jsstring) (l : list jsstring) :
  A <> [] ->
  match fold_left (shortestExtensionStep A) l None with
  | None => forall k, In k l -> startsWith k A = false
  | Some k =>
      exists l1 l2,
        l = l1 ++ k :: l2 /\
        startsWith k A = true /\
        (forall k', In k' l1 -> startsWith k' A = true -> length k < length k') /\
        (forall k', In k' l2 -> startsWith k' A = true -> length k <= length k')
  end.
Proof.
  intros HA. induction l as [|x l IH] using rev_ind; [cbn; tauto|].
  rewrite fold_left_app. cbn [fold_left].
  destruct (fold_left (shortestExtensionStep A) l None) as [k|].
  - destruct IH as (l1 & l2 & -> & Hk & Hb & Ha).
    assert (Hne : truthyString (Some k) = true).
    { destruct k; [|reflexivity]. destruct A; [congruence | discriminate]. }
    unfold shortestExtensionStep. rewrite Hne. cbn [negb orb].
    destruct (startsWith x A) eqn:Hx; cbn [andb].
    + destruct (length x <? length k) eqn:Hlt.
      * apply Nat.ltb_lt in Hlt.
        exists (l1 ++ k :: l2), []. split; [reflexivity|]. split; [assumption|].
        split; [|intros ? []].
        intros k' Hin Hk'. apply in_app_or in Hin as [Hin | [<- | Hin]].
        -- specialize (Hb _ Hin Hk'). lia.
        -- assumption.
        -- specialize (Ha _ Hin Hk'). lia.
      * apply Nat.ltb_ge in Hlt.
        exists l1, (l2 ++ [x]). split; [now rewrite <- app_assoc|].
        split; [assumption|]. split; [assumption|].
        intros k' Hin Hk'. apply in_app_or in Hin as [Hin | [<- | []]]; auto.
    + exists l1, (l2 ++ [x]). split; [now rewrite <- app_assoc|].
      split; [assumption|]. split; [assumption|].
      intros k' Hin Hk'. apply in_app_or in Hin as [Hin | [<- | []]]; auto.
      congruence.
  - unfold shortestExtensionStep. cbn [truthyString negb orb].
    rewrite andb_true_r.
    destruct (startsWith x A) eqn:Hx.
    + exists l, []. split; [reflexivity|]. split; [assumption|].
      split; [|intros ? []].
      intros k' Hin Hk'. rewrite (IH _ Hin) in Hk'. discriminate.
    + intros k Hin. apply in_app_or in Hin as [Hin | [<- | []]]; auto.
Qed.

Lemma shortestExtensionLoop_some (T : Translations) (A k : jsstring) :
  A <> [] -> shortestExtensionLoop T A = Some k -> isShortestExtension T A k.
Proof.
  intros HA H. pose proof (shortestExtension_fold A (keys T) HA) as F.
  unfold shortestExtensionLoop in H. rewrite H in F. exact F.
Qed.

Lemma shortestExtensionLoop_none (T : Translations) (A : jsstring) :
  A <> [] -> shortestExtensionLoop T A = None ->
  forall k, In k (keys T) -> startsWith k A = false.
Proof.
  intros HA H. pose proof (shortestExtension_fold A (keys T) HA) as F.
  unfold shortestExtensionLoop in H. rewrite H in F. exact F.
Qed.

Lemma shortestExtensionLoop_found (T : Translations) (A k0 : jsstring) :
  A <> [] -> In k0 (keys T) -> startsWith k0 A = true ->
  exists x ext, shortestExtensionLoop T A = Some (x :: ext)
                /\ isShortestExtension T A (x :: ext).
Proof.
  intros HA Hin Hk0.
  destruct (shortestExtensionLoop T A) as [k|] eqn:E.
  - pose proof (shortestExtensionLoop_some T A k HA E) as S.
    destruct k as [|x ext].
    + destruct S as (_ & _ & _ & Hk & _). destruct A; [congruence | discriminate].
    + eauto.
  - rewrite (shortestExtensionLoop_none T A HA E _ Hin) in Hk0. discriminate.
Qed.

Lemma isShortestExtension_get (T : Translations) (A k : jsstring) :
  isShortestExtension T A k -> exists s, tr_get T k = Some (Str s).
Proof.
  intros (l1 & l2 & E & _). apply tr_get_key. rewrite E. apply in_elt.
Qed.

Lemma shortestExtensionLoop_no_extension (T : Translations) (A : jsstring) :
  A <> [] ->
  (forall k, In k (keys T) -> startsWith k A = false) ->
  shortestExtensionLoop T A = None.
Proof.
  intros HA Hno. destruct (shortestExtensionLoop T A) as [k|] eqn:E; [|reflexivity].
  destruct (shortestExtensionLoop_some T A k HA E) as (l1 & l2 & Ek & Hk & _).
  rewrite Hno in Hk; [discriminate|]. rewrite Ek. apply in_elt.
Qed.

Lemma removelast_properPrefix (A : jsstring) :
  A <> [] -> properPrefix (removelast A) A.
Proof.
  intros HA. destruct (exists_last HA) as [s [c ->]].
  rewrite removelast_last. split.
  - apply startsWith_prefix. now exists [c].
  - intros E. apply (f_equal (@length _)) in E. rewrite length_app in E.
    cbn in E. lia.
Qed.

Lemma findReplacementFuel_enough (T : Translations) (fuel : nat) (A : jsstring) :
  length A < fuel -> findReplacementFuel fuel T A = Some (findReplacement T A).
Proof.
  revert A. induction fuel as [|fuel IH]; intros A HA; [lia|].
  destruct A as [|c r]; [now rewrite findReplacement_equation_1|].
  rewrite findReplacement_equation_2. cbn [findReplacementFuel].
  destruct (truthy (tr_get T (c :: r))); [reflexivity|].
  assert (Hrec : length (slice (c :: r) 0 (len (c :: r) - 1)) < fuel).
  { pose proof (slice_init_shorter (c :: r)). cbn [length] in *.
    assert (c :: r <> []) by discriminate. intuition lia. }
  destruct (shortestExtensionLoop T (c :: r)) as [[|x ext]|];
    cbn [truthyString]; try rewrite (IH _ Hrec); reflexivity.
Qed.

(** C9. [findReplacement] terminates on every abbreviation and every table:
    counting nested calls, a budget of one more than the length of the
    abbreviation always reaches the answer; the argument of the recursive call
    is the abbreviation without its last character, which is strictly shorter;
    and the empty abbreviation returns no replacement. *)
Theorem findReplacement_terminates (T : Translations) (A : jsstring) :
  findReplacementFuel (S (length A)) T A = Some (findReplacement T A)
  /\ (A <> [] ->
      slice A 0 (len A - 1) = removelast A
      /\ length (slice A 0 (len A - 1)) < length A)
  /\ findReplacement T [] = None.
Proof.
  split; [apply findReplacementFuel_enough; lia|].
  split; [|apply findReplacement_equation_1].
  intros HA. split; [now apply slice_removelast | now apply slice_init_shorter].
Qed.

Lemma findReplacement_terminates_witness :
  findReplacementFuel 3 [(u "a", u "X")] (u "zz")
    = Some (findReplacement [(u "a", u "X")] (u "zz"))
  /\ slice (u "zz") 0 (len (u "zz") - 1) = removelast (u "zz")
  /\ length (slice (u "zz") 0 (len (u "zz") - 1)) < length (u "zz").
Proof.
  destruct (findReplacement_terminates [(u "a", u "X")] (u "zz")) as (H1 & H2 & _).
  split; [exact H1 | apply H2; discriminate].
Defined.

(** X18. The exact match and the shortest extension. For a non-empty abbreviation
    [A]: when [A] is a key of the table, [findReplacement] returns its symbol;
    when it is neither a key nor the name of a member of [Object.prototype]
    and some key starts with [A], it returns the symbol of the shortest such
    key, the first in iteration order among the keys of that length (there is
    exactly one such key). *)
Theorem findReplacement_own_then_shortest_extension
    (T : Translations) (A : jsstring) :
  A <> [] ->
  (forall s, tr_own T A = Some s -> findReplacement T A = Some (Str s))
  /\ (tr_own T A = None -> isInherited A = false ->
      (exists k, In k (keys T) /\ startsWith k A = true) ->
      exists k s,
        isShortestExtension T A k /\ k <> A /\ tr_own T k = Some s
        /\ findReplacement T A = Some (Str s)
        /\ forall k', isShortestExtension T A k' -> k' = k).
Proof.
  intros HA. rewrite (findReplacement_nonempty T A HA). split.
  - intros s Hs. rewrite (tr_get_own T A s Hs).
    destruct s as [|y s]; cbn [truthy]; [|reflexivity].
    destruct (shortestExtensionLoop_found T A A HA) as (x & ext & -> & S).
    { eapply tr_own_some_key; eassumption. }
    { apply startsWith_refl. }
    destruct S as (l1 & l2 & E & Hk & Hb & Ha).
    assert (Hin : In A (keys T)) by (eapply tr_own_some_key; eassumption).
    rewrite E in Hin. pose proof (startsWith_length _ _ Hk) as Hlen.
    apply in_app_or in Hin as [Hin | [Heq | Hin]].
    + specialize (Hb _ Hin (startsWith_refl A)). lia.
    + rewrite Heq. now apply tr_get_own.
    + specialize (Ha _ Hin (startsWith_refl A)).
      rewrite (startsWith_same_length _ _ Hk Ha). now apply tr_get_own.
  - intros Hnone Hinh (k0 & Hin & Hk0).
    rewrite (tr_get_not_own T A Hnone), Hinh. cbn [truthy].
    destruct (shortestExtensionLoop_found T A k0 HA Hin Hk0) as (x & ext & -> & S).
    destruct (isShortestExtension_get T A _ S) as [s Hs].
    exists (x :: ext), s. split; [assumption|]. split.
    + intros E. rewrite E in Hs. apply tr_get_str in Hs. congruence.
    + split; [now apply tr_get_str|]. split; [assumption|].
      intros k' S'. eapply isShortestExtension_unique; eassumption.
Qed.

Lemma findReplacement_own_then_shortest_extension_witness :
  findReplacement tableAbAbc (u "ab") = Some (Str (u "X"))
  /\ exists k s,
       isShortestExtension tableAbAbc (u "a") k /\ k <> u "a"
       /\ tr_own tableAbAbc k = Some s
       /\ findReplacement tableAbAbc (u "a") = Some (Str s)
       /\ forall k', isShortestExtension tableAbAbc (u "a") k' -> k' = k.
Proof.
  split.
  - destruct (findReplacement_own_then_shortest_extension tableAbAbc (u "ab"))
      as [H _]; [discriminate|].
    apply H. reflexivity.
  - destruct (findReplacement_own_then_shortest_extension tableAbAbc (u "a"))
      as [_ H]; [discriminate|].
    apply H; [reflexivity | reflexivity |].
    exists (u "ab"). split; [left; reflexivity | reflexivity].
Defined.

(** C3. The table [{"constructorx": "Y"}], which the constructor builds from
    that override table and an empty base table, and the abbreviation
    ["constructor"]: it is not a key, the only key has it as a proper prefix
    and is the shortest such key; yet [findReplacement] returns, instead of
    the symbol ["Y"] of that key, the function that the read
    [allTranslations["constructor"]] finds in [Object.prototype]. *)
Theorem findReplacement_returns_inherited_member :
  allTranslations (newLeanInputAbbreviator [backslash] tableConstructorx [])
  = tableConstructorx
  /\ tr_own tableConstructorx (u "constructor") = None
  /\ keys tableConstructorx = [] ++ u "constructorx" :: []
  /\ startsWith (u "constructorx") (u "constructor") = true
  /\ u "constructorx" <> u "constructor"
  /\ tr_own tableConstructorx (u "constructorx") = Some (u "Y")
  /\ findReplacement tableConstructorx (u "constructor")
     = Some (Member (u "constructor"))
  /\ findReplacement tableConstructorx (u "constructor") <> Some (Str (u "Y"))
  /\ findReplacement tableConstructorx (u "construct") = Some (Str (u "Y")).
Proof.
  repeat split; try reflexivity; discriminate.
Qed.

(** The prefix fallback in general. For a non-empty abbreviation [A] that
    reads as [undefined] in the table and that no key starts with: when [A]
    without its last character resolves to a truthy value, [findReplacement]
    returns that value as a string followed by the last character of [A]; when
    it resolves to the empty string or to nothing, [findReplacement] returns
    no replacement, and so it does when no proper prefix of [A] resolves. *)
Lemma findReplacement_prefix_fallback (T : Translations) (A : jsstring) :
  A <> [] ->
  tr_get T A = None ->
  (forall k, In k (keys T) -> startsWith k A = false) ->
  (forall v, truthy (Some v) = true -> findReplacement T (removelast A) = Some v ->
             findReplacement T A
             = Some (Str (toPrimitiveString v ++ [last A 0%N])))
  /\ (findReplacement T (removelast A) = Some (Str []) ->
      findReplacement T A = None)
  /\ (findReplacement T (removelast A) = None -> findReplacement T A = None)
  /\ ((forall P, properPrefix P A -> findReplacement T P = None) ->
      findReplacement T A = None).
Proof.
  intros HA Hnone Hno.
  rewrite (findReplacement_nonempty T A HA), Hnone.
  rewrite (shortestExtensionLoop_no_extension T A HA Hno). cbn [truthy].
  repeat split.
  - intros v Hv ->. now rewrite Hv.
  - now intros ->.
  - now intros ->.
  - intros H. now rewrite (H _ (removelast_properPrefix A HA)).
Qed.

Example findReplacement_prefix_fallback_abz :
  findReplacement tableAbAbc (u "abz")
  = Some (Str (u "X" ++ [last (u "abz") 0%N]))
  /\ findReplacement tableAbAbc (u "z") = None.
Proof.
  assert (Hno : forall A, existsb (fun k => startsWith k A) (keys tableAbAbc) = false ->
                forall k, In k (keys tableAbAbc) -> startsWith k A = false).
  { intros A H k Hin. destruct (startsWith k A) eqn:E; [|reflexivity].
    rewrite <- H. symmetry. apply existsb_exists. now exists k. }
  split.
  - destruct (findReplacement_prefix_fallback tableAbAbc (u "abz")) as (H & _);
      [discriminate | reflexivity | now apply Hno |].
    apply (H (Str (u "X"))); reflexivity.
  - destruct (findReplacement_prefix_fallback tableAbAbc (u "z")) as (_ & _ & H & _);
      [discriminate | reflexivity | now apply Hno |].
    apply H. reflexivity.
Qed.

(** C4. The table [{"a": ""}] and the abbreviation ["ab"]: ["ab"] is no key and
    no key starts with it; ["a"], that is ["ab"] without its last character,
    resolves to the replacement [""]; and [findReplacement] returns no
    replacement for ["ab"], not [""] followed by ["b"]. *)
Theorem findReplacement_prefix_fallback_empty_symbol :
  tr_get [(u "a", [])] (u "ab") = None
  /\ forallb (fun k => negb (startsWith k (u "ab"))) (keys [(u "a", [])]) = true
  /\ findReplacement [(u "a", [])] (removelast (u "ab")) = Some (Str [])
  /\ findReplacement [(u "a", [])] (u "ab") = None
  /\ findReplacement [(u "a", [])] (u "ab")
     <> Some (Str ([] ++ [last (u "ab") 0%N])).
Proof.
  repeat split; try reflexivity. discriminate.
Qed.

(** ** Merging the tables *)

Lemma hasKey_In (o : Translations) (k : jsstring) :
  hasKey o k = true <-> In k (keys o).
Proof.
  unfold hasKey. rewrite existsb_exists. split.
  - intros (k' & Hin & E). apply jsstring_eqb_eq in E. now subst.
  - intros Hin. exists k. split; [assumption | apply jsstring_eqb_refl].
Qed.

Lemma hasKey_false (o : Translations) (k : jsstring) :
  hasKey o k = false <-> tr_own o k = None.
Proof.
  rewrite tr_own_none_key, <- hasKey_In. destruct (hasKey o k); split; congruence.
Qed.

Lemma tr_own_eqb (k k' v : jsstring) (o : Translations) :
  tr_own ((k, v) :: o) k' = if jsstring_eqb k k' then Some v else tr_own o k'.
Proof. reflexivity. Qed.

Lemma tr_own_overwrite (o : Translations) (k v k' : jsstring) :
  In k (keys o) ->
  tr_own (overwrite o k v) k' = if jsstring_eqb k k' then Some v else tr_own o k'.
Proof.
  induction o as [|[k0 v0] o IH]; cbn [keys map fst In overwrite]; [tauto|].
  intros Hin. destruct (jsstring_eqb k0 k) eqn:E0.
  - apply jsstring_eqb_eq in E0. subst k0. cbn [tr_own].
    destruct (jsstring_eqb k k'); reflexivity.
  - cbn [tr_own]. destruct Hin as [Hin | Hin].
    + subst. rewrite jsstring_eqb_refl in E0. discriminate.
    + rewrite (IH Hin). destruct (jsstring_eqb k0 k') eqn:E1; [|reflexivity].
      apply jsstring_eqb_eq in E1. subst k'.
      apply jsstring_eqb_neq in E0.
      assert (k <> k0) by congruence.
      now rewrite (proj2 (jsstring_eqb_neq k k0)).
Qed.

Lemma tr_own_insertIndexKey (n : N) (k v k' : jsstring) (o : Translations) :
  ~ In k (keys o) ->
  tr_own (insertIndexKey n k v o) k'
  = if jsstring_eqb k k' then Some v else tr_own o k'.
Proof.
  induction o as [|[k0 v0] o IH]; cbn [keys map fst In insertIndexKey]; intros Hnin.
  - reflexivity.
  - destruct (arrayIndex k0) as [m|]; [destruct (m <? n)%N|]; try reflexivity.
    cbn [tr_own]. rewrite IH by tauto.
    destruct (jsstring_eqb k0 k') eqn:E1; [|reflexivity].
    apply jsstring_eqb_eq in E1. subst k'.
    assert (k <> k0) by (intros ->; tauto).
    now rewrite (proj2 (jsstring_eqb_neq k k0)).
Qed.

Lemma tr_own_app_new (o : Translations) (k v k' : jsstring) :
  ~ In k (keys o) ->
  tr_own (o ++ [(k, v)]) k' = if jsstring_eqb k k' then Some v else tr_own o k'.
Proof.
  induction o as [|[k0 v0] o IH]; cbn [keys map fst In app]; intros Hnin.
  - reflexivity.
  - cbn [tr_own]. rewrite IH by tauto.
    destruct (jsstring_eqb k0 k') eqn:E1; [|reflexivity].
    apply jsstring_eqb_eq in E1. subst k'.
    assert (k <> k0) by (intros ->; tauto).
    now rewrite (proj2 (jsstring_eqb_neq k k0)).
Qed.

Lemma tr_own_set (o : Translations) (k v k' : jsstring) :
  tr_own (tr_set o k v) k' = if jsstring_eqb k k' then Some v else tr_own o k'.
Proof.
  unfold tr_set. destruct (hasKey o k) eqn:E.
  - apply tr_own_overwrite. now apply hasKey_In.
  - assert (~ In k (keys o)) by (rewrite <- hasKey_In; congruence).
    destruct (arrayIndex k); [now apply tr_own_insertIndexKey | now apply tr_own_app_new].
Qed.

Lemma tr_own_spread (target source : Translations) (k : jsstring) :
  NoDup (keys source) ->
  tr_own (spread target source) k
  = match tr_own source k with
    | Some v => Some v
    | None => tr_own target k
    end.
Proof.
  revert target. induction source as [|[k0 v0] source IH]; intros target Hnd.
  - reflexivity.
  - cbn [keys map fst] in Hnd. inversion Hnd as [|? ? Hnin Hnd']; subst.
    unfold spread in *. cbn [fold_left fst snd]. rewrite (IH _ Hnd').
    rewrite tr_own_set, tr_own_eqb.
    destruct (jsstring_eqb k0 k) eqn:E; [|reflexivity].
    apply jsstring_eqb_eq in E. subst k0.
    now rewrite (proj2 (tr_own_none_key source k) Hnin).
Qed.

(** The merged table reads the override table first. *)
Lemma mergeTranslations_get (base custom : Translations) (k : jsstring) :
  NoDup (keys base) -> NoDup (keys custom) ->
  tr_own (mergeTranslations base custom) k
  = match tr_own custom k with
    | Some v => Some v
    | None => tr_own base k
    end.
Proof.
  intros Hb Hc. unfold mergeTranslations.
  rewrite (tr_own_spread _ custom k Hc), (tr_own_spread [] base k Hb).
  now destruct (tr_own base k).
Qed.

(** ** The hover lookup *)

Lemma strictEq_true (v : Value) (s : jsstring) :
  strictEq v s = true <-> v = Some (Str s).
Proof.
  destruct v as [[w|n]|]; cbn; try (split; discriminate).
  rewrite jsstring_eqb_eq. split; congruence.
Qed.

(** The flattened table reads an abbreviation from the override table when
    that owns it, and as the base table reads it otherwise. *)
Lemma mergeTranslations_read (base custom : Translations) (k : jsstring) :
  NoDup (keys base) -> NoDup (keys custom) ->
  tr_get (mergeTranslations base custom) k
  = match tr_own custom k with
    | Some v => Some (Str v)
    | None => tr_get base k
    end.
Proof.
  intros Hb Hc. unfold tr_get. rewrite (mergeTranslations_get base custom k Hb Hc).
  now destruct (tr_own custom k).
Qed.

Lemma fold_left_push (P : jsstring -> bool) (l acc : list jsstring) :
  fold_left (fun abbrevs k => if P k then abbrevs ++ [k] else abbrevs) l acc
  = acc ++ filter P l.
Proof.
  revert acc. induction l as [|k l IH]; intros acc; cbn [fold_left filter].
  - now rewrite app_nil_r.
  - rewrite IH. destruct (P k); [now rewrite <- app_assoc | reflexivity].
Qed.

Lemma fold_left_push_unless (Q P : jsstring -> bool) (l acc : list jsstring) :
  fold_left (fun abbrevs k => if Q k then abbrevs
                              else if P k then abbrevs ++ [k] else abbrevs) l acc
  = acc ++ filter (fun k => negb (Q k) && P k) l.
Proof.
  revert acc. induction l as [|k l IH]; intros acc; cbn [fold_left filter].
  - now rewrite app_nil_r.
  - rewrite IH. destruct (Q k); cbn [negb andb]; [reflexivity|].
    destruct (P k); [now rewrite <- app_assoc | reflexivity].
Qed.

Lemma getAbbrevations_filter (this : Hover.t) (symbol : jsstring) :
  Hover.getAbbrevations this symbol
  = filter (fun k => strictEq (tr_get (Hover.customTranslations this) k) symbol)
           (keys (Hover.customTranslations this))
    ++ filter (fun k => negb (truthy (tr_get (Hover.customTranslations this) k))
                        && strictEq (tr_get (Hover.translations this) k) symbol)
              (keys (Hover.translations this)).
Proof.
  unfold Hover.getAbbrevations.
  rewrite (fold_left_push
             (fun k => strictEq (tr_get (Hover.customTranslations this) k) symbol)).
  cbn [app].
  apply (fold_left_push_unless
           (fun k => truthy (tr_get (Hover.customTranslations this) k))
           (fun k => strictEq (tr_get (Hover.translations this) k) symbol)).
Qed.

Lemma insertByLength_perm (a : jsstring) (l : list jsstring) :
  Permutation (insertByLength a l) (a :: l).
Proof.
  induction l as [|b l IH]; cbn [insertByLength]; [reflexivity|].
  destruct (length a <=? length b); [reflexivity|].
  rewrite IH. apply perm_swap.
Qed.

Lemma sortByLength_perm (l : list jsstring) : Permutation (sortByLength l) l.
Proof.
  induction l as [|a l IH]; cbn [sortByLength]; [reflexivity|].
  rewrite insertByLength_perm. now constructor.
Qed.

Lemma insertByLength_sorted (a : jsstring) (l : list jsstring) :
  StronglySorted shorterEq l -> StronglySorted shorterEq (insertByLength a l).
Proof.
  induction l as [|b l IH]; cbn [insertByLength]; intros Hs.
  - repeat constructor.
  - inversion Hs as [|? ? Hs' Hall]; subst.
    destruct (length a <=? length b) eqn:E.
    + apply Nat.leb_le in E. constructor; [assumption|].
      constructor; [assumption|].
      eapply Forall_impl; [|exact Hall]. unfold shorterEq. intros; lia.
    + apply Nat.leb_gt in E. constructor; [now apply IH|].
      eapply Permutation_Forall; [symmetry; apply insertByLength_perm|].
      constructor; [unfold shorterEq; lia | assumption].
Qed.

Lemma sortByLength_sorted (l : list jsstring) :
  StronglySorted shorterEq (sortByLength l).
Proof.
  induction l as [|a l IH]; cbn [sortByLength]; [constructor|].
  now apply insertByLength_sorted.
Qed.

(** Stability: the abbreviations of any one length keep their order. *)
Lemma insertByLength_stable (n : nat) (a : jsstring) (l : list jsstring) :
  filter (fun x => length x =? n) (insertByLength a l)
  = filter (fun x => length x =? n) (a :: l).
Proof.
  induction l as [|b l IH]; cbn [insertByLength]; [reflexivity|].
  destruct (length a <=? length b) eqn:E; [reflexivity|].
  apply Nat.leb_gt in E. cbn [filter] in *. rewrite IH.
  destruct (length a =? n) eqn:Ea, (length b =? n) eqn:Eb; try reflexivity.
  apply Nat.eqb_eq in Ea, Eb. lia.
Qed.

Lemma sortByLength_stable (n : nat) (l : list jsstring) :
  filter (fun x => length x =? n) (sortByLength l)
  = filter (fun x => length x =? n) l.
Proof.
  induction l as [|a l IH]; cbn [sortByLength]; [reflexivity|].
  rewrite insertByLength_stable. cbn [filter]. now rewrite IH.
Qed.

Lemma filter_ext_in_keys (f g : jsstring -> bool) (l : list jsstring) :
  (forall k, In k l -> f k = g k) -> filter f l = filter g l.
Proof.
  induction l as [|k l IH]; intros H; cbn [filter]; [reflexivity|].
  rewrite (H k (or_introl eq_refl)), IH; [reflexivity|].
  intros k' Hin. apply H. now right.
Qed.

Lemma filter_twice (f g : jsstring -> bool) (l : list jsstring) :
  filter f (filter g l) = filter (fun k => g k && f k) l.
Proof.
  induction l as [|k l IH]; cbn [filter]; [reflexivity|].
  destruct (g k); cbn [filter andb]; now rewrite IH.
Qed.

Lemma collectionOrder_NoDup (custom base : Translations) :
  NoDup (keys custom) -> NoDup (keys base) -> NoDup (collectionOrder custom base).
Proof.
  intros Hc Hb. apply NoDup_app; [assumption | now apply NoDup_filter |].
  intros k Hin Hf. apply filter_In in Hf as [_ Hf].
  apply hasKey_In in Hin. rewrite Hin in Hf. discriminate.
Qed.

Lemma collectionOrder_In (custom base : Translations) (k s : jsstring) :
  NoDup (keys custom) -> NoDup (keys base) ->
  tr_get (mergeTranslations base custom) k = Some (Str s) ->
  In k (collectionOrder custom base).
Proof.
  intros Hc Hb H. apply tr_get_str in H.
  rewrite (mergeTranslations_get base custom k Hb Hc) in H.
  unfold collectionOrder. apply in_or_app.
  destruct (tr_own custom k) as [v|] eqn:E.
  - left. eapply tr_own_some_key; eassumption.
  - right. apply filter_In. split; [eapply tr_own_some_key; eassumption|].
    now rewrite (proj2 (hasKey_false custom k) E).
Qed.

(** Without an empty symbol in the override table and without a base key
    named like a member of [Object.prototype], [getAbbrevations] lists the
    override keys that map to [symbol] and then the base keys that map to it
    and are no override keys. *)
Lemma getAbbrevations_collected (this : Hover.t) (symbol : jsstring) :
  noEmptySymbol (Hover.customTranslations this) ->
  noMemberKey (Hover.translations this) ->
  Hover.getAbbrevations this symbol
  = filter (fun k => strictEq (tr_get (Hover.customTranslations this) k) symbol)
           (keys (Hover.customTranslations this))
    ++ filter (fun k => negb (hasKey (Hover.customTranslations this) k)
                        && strictEq (tr_get (Hover.translations this) k) symbol)
              (keys (Hover.translations this)).
Proof.
  intros Ht Hm. rewrite getAbbrevations_filter. f_equal.
  apply filter_ext_in_keys. intros k Hin. f_equal. f_equal.
  destruct (hasKey (Hover.customTranslations this) k) eqn:E.
  - apply hasKey_In in E. exact (Ht k E).
  - apply hasKey_false in E. rewrite (tr_get_not_own _ _ E). now rewrite (Hm k Hin).
Qed.

(** Under the same conditions and for well-formed tables these are the
    abbreviations of the flattened table that map to [symbol], in
    [collectionOrder]. *)
Lemma getAbbrevations_merged (this : Hover.t) (symbol : jsstring) :
  NoDup (keys (Hover.customTranslations this)) ->
  NoDup (keys (Hover.translations this)) ->
  noEmptySymbol (Hover.customTranslations this) ->
  noMemberKey (Hover.translations this) ->
  Hover.getAbbrevations this symbol
  = filter (fun k => strictEq
                       (tr_get (mergeTranslations (Hover.translations this)
                                                  (Hover.customTranslations this)) k)
                       symbol)
           (collectionOrder (Hover.customTranslations this) (Hover.translations this)).
Proof.
  intros Hc Hb Ht Hm. rewrite (getAbbrevations_collected this symbol Ht Hm).
  unfold collectionOrder.
  rewrite filter_app, filter_twice. f_equal; apply filter_ext_in_keys; intros k Hin.
  - rewrite (mergeTranslations_read _ _ k Hb Hc).
    destruct (tr_own_key_some _ _ Hin) as [v Hv]. rewrite Hv.
    now rewrite (tr_get_own _ _ _ Hv).
  - rewrite (mergeTranslations_read _ _ k Hb Hc).
    destruct (hasKey (Hover.customTranslations this) k) eqn:E; [reflexivity|].
    apply hasKey_false in E. now rewrite E.
Qed.

(** C6, as the code has it. With well-formed tables (no key twice), no empty
    symbol in the override table and no base key named like a member of
    [Object.prototype], for every symbol: [getAbbrevations] returns, unsorted,
    the override keys that map to the symbol in the iteration order of the
    override table and then the base keys that map to it and are no override
    keys, in the iteration order of the base table; the list of the hover is
    that list sorted, and it holds exactly the abbreviations that the
    flattened table maps to the symbol, none twice, shortest first, those of
    one length in the order [getAbbrevations] collects them (override keys
    before base keys). The hover shows nothing when the list is empty and
    otherwise the message
    [Type <symbol> using <leader><abbrev1> or <leader><abbrev2> ...] over that
    list. *)
Theorem hover_abbreviations_sorted (this : Hover.t) (symbol : jsstring) :
  NoDup (keys (Hover.customTranslations this)) ->
  NoDup (keys (Hover.translations this)) ->
  noEmptySymbol (Hover.customTranslations this) ->
  noMemberKey (Hover.translations this) ->
  let table := mergeTranslations (Hover.translations this)
                                 (Hover.customTranslations this) in
  let abbrevs := Hover.sortedAbbrevations this symbol in
  Hover.getAbbrevations this symbol
  = filter (fun k => strictEq (tr_get (Hover.customTranslations this) k) symbol)
           (keys (Hover.customTranslations this))
    ++ filter (fun k => negb (hasKey (Hover.customTranslations this) k)
                        && strictEq (tr_get (Hover.translations this) k) symbol)
              (keys (Hover.translations this))
  /\ abbrevs = sortByLength (Hover.getAbbrevations this symbol)
  /\ (forall k, In k abbrevs <-> tr_get table k = Some (Str symbol))
  /\ NoDup abbrevs
  /\ StronglySorted shorterEq abbrevs
  /\ (forall n,
        filter (fun a => length a =? n) abbrevs
        = filter (fun a => length a =? n) (Hover.getAbbrevations this symbol))
  /\ (forall n,
        filter (fun a => length a =? n) abbrevs
        = filter (fun a => (length a =? n) && strictEq (tr_get table a) symbol)
                 (collectionOrder (Hover.customTranslations this)
                                  (Hover.translations this)))
  /\ (forall doc pos,
        Hover.provideHover this doc pos
        = match Hover.sortedAbbrevations this (symbolAt doc pos) with
          | [] => None
          | a :: l =>
              Some {| Hover.contents :=
                        u "Type " ++ symbolAt doc pos ++ u " using "
                          ++ join (u " or ")
                                  (map (fun x => Hover.leader this ++ x) (a :: l));
                      Hover.range := {| start := pos; end_ := translate pos 1 |} |}
          end).
Proof.
  intros Hc Hb Ht Hm table abbrevs.
  assert (Hperm : Permutation abbrevs
                    (filter (fun k => strictEq (tr_get table k) symbol)
                            (collectionOrder (Hover.customTranslations this)
                                             (Hover.translations this)))).
  { unfold abbrevs, Hover.sortedAbbrevations.
    rewrite sortByLength_perm, (getAbbrevations_merged this symbol Hc Hb Ht Hm).
    reflexivity. }
  split; [exact (getAbbrevations_collected this symbol Ht Hm)|].
  split; [reflexivity|].
  split; [|split; [|split; [|split; [|split]]]].
  - intros k. split.
    + intros Hin. apply (Permutation_in _ Hperm) in Hin.
      apply filter_In in Hin as [_ Hin]. now apply strictEq_true.
    + intros Hk. apply (Permutation_in _ (Permutation_sym Hperm)).
      apply filter_In. split; [|now apply strictEq_true].
      eapply collectionOrder_In; eassumption.
  - apply (Permutation_NoDup (Permutation_sym Hperm)).
    apply NoDup_filter. now apply collectionOrder_NoDup.
  - apply sortByLength_sorted.
  - intros n. unfold abbrevs, Hover.sortedAbbrevations. apply sortByLength_stable.
  - intros n. unfold abbrevs, Hover.sortedAbbrevations.
    rewrite sortByLength_stable, (getAbbrevations_merged this symbol Hc Hb Ht Hm).
    rewrite filter_twice. apply filter_ext_in_keys. intros k _. apply andb_comm.
  - intros doc pos. unfold Hover.provideHover, Hover.message. fold (symbolAt doc pos).
    destruct (Hover.sortedAbbrevations this (symbolAt doc pos)); reflexivity.
Qed.

Lemma hover_abbreviations_sorted_witness :
  Hover.getAbbrevations hoverAbAB (u "X") = [u "ab"; u "a"; u "b"]
  /\ Hover.sortedAbbrevations hoverAbAB (u "X") = [u "a"; u "b"; u "ab"]
  /\ (forall k, In k (Hover.sortedAbbrevations hoverAbAB (u "X"))
                <-> tr_get (mergeTranslations (Hover.translations hoverAbAB)
                                              (Hover.customTranslations hoverAbAB)) k
                    = Some (Str (u "X")))
  /\ StronglySorted shorterEq (Hover.sortedAbbrevations hoverAbAB (u "X"))
  /\ Hover.provideHover hoverAbAB [u "X"] {| line := 0; character := 0 |}
     = Some {| Hover.contents := u "Type X using \a or \b or \ab";
               Hover.range := {| start := {| line := 0; character := 0 |};
                                 end_ := {| line := 0; character := 1 |} |} |}.
Proof.
  destruct (hover_abbreviations_sorted hoverAbAB (u "X"))
    as (H0 & H1 & H2 & _ & H4 & _ & _ & H7).
  - repeat constructor; cbn; intuition discriminate.
  - repeat constructor; cbn; intuition discriminate.
  - intros k [<- | [<- | []]]; reflexivity.
  - intros k [<- | [<- | []]]; reflexivity.
  - split; [rewrite H0; reflexivity|]. split; [rewrite H1, H0; reflexivity|].
    split; [exact H2|]. split; [exact H4|].
    rewrite H7. reflexivity.
Defined.

(** C6 as stated fails twice. [getAbbrevations] itself returns the
    abbreviations as collected, not shortest first: for the override table
    [{"ab": "X", "a": "X"}] it returns [ab] before [a], and only
    [provideHover] sorts. And the hover does not take the ties in the
    iteration order of the table: the flattened table of base [{"b": "X"}] and
    override [{"a": "X"}] iterates [b] before [a], the hover lists [a] before
    [b]. *)
Lemma hover_order_not_table_order :
  Hover.getAbbrevations hoverAbA (u "X") = [u "ab"; u "a"]
  /\ abbreviationsFor (mergeTranslations (Hover.translations hoverAbA)
                                         (Hover.customTranslations hoverAbA))
                      (u "X")
     = [u "a"; u "ab"]
  /\ keys (mergeTranslations (Hover.translations hoverAB)
                             (Hover.customTranslations hoverAB))
     = [u "b"; u "a"]
  /\ abbreviationsFor (mergeTranslations (Hover.translations hoverAB)
                                         (Hover.customTranslations hoverAB))
                      (u "X")
     = [u "b"; u "a"]
  /\ Hover.sortedAbbrevations hoverAB (u "X") = [u "a"; u "b"]
  /\ Hover.provideHover hoverAB [u "X"] {| line := 0; character := 0 |}
     = Some {| Hover.contents := u "Type X using \a or \b";
               Hover.range := {| start := {| line := 0; character := 0 |};
                                 end_ := {| line := 0; character := 1 |} |} |}
  /\ Hover.getAbbrevations hoverAbA (u "X")
     <> abbreviationsFor (mergeTranslations (Hover.translations hoverAbA)
                                            (Hover.customTranslations hoverAbA))
                         (u "X")
  /\ Hover.sortedAbbrevations hoverAB (u "X")
     <> abbreviationsFor (mergeTranslations (Hover.translations hoverAB)
                                            (Hover.customTranslations hoverAB))
                         (u "X").
Proof.
  repeat split; try reflexivity; discriminate.
Qed.

(** C5. A key of both tables whose override symbol is the empty string: the
    merged table maps ["a"] to the override's [""], and [getAbbrevations]
    still lists ["a"] for the shadowed base symbol, which the hover then
    shows. *)
Theorem empty_override_does_not_shadow :
  let base := [(u "a", u "X")] in
  let custom := [(u "a", [])] in
  let hover := {| Hover.leader := [backslash];
                  Hover.customTranslations := custom;
                  Hover.translations := base |} in
  tr_get (mergeTranslations base custom) (u "a") = Some (Str [])
  /\ findReplacement (mergeTranslations base custom) (u "a") = Some (Str [])
  /\ Hover.getAbbrevations hover (u "X") = [u "a"]
  /\ Hover.provideHover hover [u "X"] {| line := 0; character := 0 |}
     = Some {| Hover.contents := u "Type X using \a";
               Hover.range := {| start := {| line := 0; character := 0 |};
                                 end_ := {| line := 0; character := 1 |} |} |}.
Proof.
  repeat split; reflexivity.
Qed.

(** For a key of both tables with a non-empty override symbol, the merged
    table and the hover show the override's symbol only. *)
Lemma override_shadows_base (this : Hover.t) (k s symbol : jsstring) :
  NoDup (keys (Hover.customTranslations this)) ->
  NoDup (keys (Hover.translations this)) ->
  In k (keys (Hover.translations this)) ->
  tr_own (Hover.customTranslations this) k = Some s ->
  tr_get (mergeTranslations (Hover.translations this)
                            (Hover.customTranslations this)) k = Some (Str s)
  /\ (s <> [] -> s <> symbol -> ~ In k (Hover.getAbbrevations this symbol)).
Proof.
  intros Hc Hb Hin Hs. split.
  - now rewrite (mergeTranslations_read _ _ k Hb Hc), Hs.
  - intros Hne Hdiff. rewrite getAbbrevations_filter. intros H.
    apply in_app_or in H as [H | H]; apply filter_In in H as [_ H];
      rewrite (tr_get_own _ _ _ Hs) in H.
    + apply strictEq_true in H. congruence.
    + destruct s; [congruence | discriminate].
Qed.

(** ** The state machine *)

Lemma getRangeInfo_inactive (h : TextEditorAbbrevHandler) (incr : Z) :
  active h = false -> getRangeInfo h incr = Some [].
Proof. intros H. unfold getRangeInfo. now rewrite H. Qed.

Lemma getRangeInfo_range_selection (h : TextEditorAbbrevHandler) (incr : Z) :
  (exists s, In s (selections (editor h)) /\ Selection.isEmpty s = false) ->
  getRangeInfo h incr = Some [].
Proof.
  intros (s & Hin & Hs). unfold getRangeInfo.
  destruct (negb (active h)); [reflexivity|].
  replace (existsb _ (selections (editor h))) with true; [reflexivity|].
  symmetry. apply existsb_exists. exists s. split; [assumption|].
  rewrite Hs. apply orb_true_r.
Qed.

Lemma rangeInfoLoop_total (doc : TextDocument) (incr : Z) (sels : list Selection.t) :
  (forall s, In s sels -> (0 <= Z.of_nat (character (Selection.active s)) + incr)%Z) ->
  forall i, exists ris, rangeInfoLoop doc incr i sels = Some ris.
Proof.
  induction sels as [|s sels IH]; intros H i; cbn [rangeInfoLoop]; [eauto|].
  replace (Z.of_nat (character (Selection.active s)) + incr <? 0)%Z with false
    by (symmetry; apply Z.ltb_ge; apply H; now left).
  destruct (IH (fun s' Hs' => H s' (or_intror Hs')) (S i)) as [ris ->].
  destruct (execLeaderRegex _); cbn [option_map]; eauto.
Qed.

Lemma getRangeInfo_total (h : TextEditorAbbrevHandler) (incr : Z) :
  (0 <= incr)%Z -> exists ris, getRangeInfo h incr = Some ris.
Proof.
  intros Hincr. unfold getRangeInfo.
  destruct (negb (active h)); [eauto|].
  destruct (existsb _ _); [eauto|].
  apply rangeInfoLoop_total. intros; lia.
Qed.

Lemma getRangeInfo_some_active (h : TextEditorAbbrevHandler) (incr : Z)
    (ri : RangeInfo.t) (ris : list RangeInfo.t) :
  getRangeInfo h incr = Some (ri :: ris) -> active h = true.
Proof.
  unfold getRangeInfo. destruct (active h); [reflexivity | discriminate].
Qed.

(** The three ways [update] ends. *)
Lemma update_cases (h : TextEditorAbbrevHandler) (incr : Z) :
  (update h incr = Throw h /\ (incr < 0)%Z)
  \/ update h incr = Normal (deactivate h)
  \/ exists h', update h incr = Normal h' /\ active h' = true /\ active h = true
                /\ abbreviator h' = abbreviator h.
Proof.
  unfold update. destruct (getRangeInfo h incr) as [[|ri ris]|] eqn:E.
  - right. now left.
  - right. right. pose proof (getRangeInfo_some_active h incr ri ris E) as Ha.
    destruct (updateLoop _ _ _) as [replacements ris'].
    eexists. split; [reflexivity|]. now cbn.
  - left. split; [reflexivity|].
    destruct (Z.ltb_spec incr 0) as [|Hge]; [assumption|].
    destruct (getRangeInfo_total h incr Hge) as [ris E']. congruence.
Qed.

Lemma update_preserves (h : TextEditorAbbrevHandler) (incr : Z) :
  undecoratedWhenInactive h -> undecoratedWhenInactive (outcome (update h incr)).
Proof.
  intros Hinv.
  destruct (update_cases h incr) as [[-> _] | [-> | (h' & -> & Ha & _)]];
    cbn [outcome]; [assumption | easy |].
  intros H. congruence.
Qed.

Lemma convert_deactivates (h : TextEditorAbbrevHandler) :
  exists h', convert h = Normal h'
             /\ active h' = false
             /\ decorations (editor h') = []
             /\ abbreviator h' = abbreviator h
             /\ document (editor h') = document (editor h)
             /\ selections (editor h') = selections (editor h)
             /\ edits (editor h') = edits (editor h).
Proof.
  unfold convert.
  destruct (getRangeInfo_total h 0 (Z.le_refl 0)) as [ris ->].
  destruct ris as [|ri ris]; [eexists; split; [reflexivity | now cbn]|].
  eexists. split; [reflexivity|].
  destruct (negb _); now cbn.
Qed.

Lemma onChanged_preserves (h : TextEditorAbbrevHandler) (ev : TextDocumentChangeEvent) :
  undecoratedWhenInactive h -> undecoratedWhenInactive (outcome (onChanged h ev)).
Proof.
  intros Hinv. unfold onChanged. destruct ev as [|change rest]; [assumption|].
  destruct (active h) eqn:Ha; cbn [negb].
  - destruct (jsstring_eqb _ _).
    + destruct (convert_deactivates h) as (h1 & -> & _).
      apply update_preserves. intros H. discriminate.
    + destruct (matchesCompleting _).
      * destruct (convert_deactivates h) as (h1 & -> & _ & Hd & _).
        intros _. exact Hd.
      * destruct (jsstring_eqb _ _); now apply update_preserves.
  - destruct (jsstring_eqb _ _); [|assumption].
    apply update_preserves. intros H. discriminate.
Qed.

Lemma step_preserves (h h' : TextEditorAbbrevHandler) :
  step h h' -> undecoratedWhenInactive h -> undecoratedWhenInactive h'.
Proof.
  intros S Hinv. destruct S as [h e He | h a | h ev | h | h].
  - unfold undecoratedWhenInactive in *. cbn. rewrite He. exact Hinv.
  - exact Hinv.
  - now apply onChanged_preserves.
  - now apply update_preserves.
  - destruct (convert_deactivates h) as (h1 & -> & _ & Hd & _). now intros _.
Qed.

(** C8. Every call of [convert] returns with [active] false and the decoration
    set empty; a transition that takes [active] from true to false leaves the
    decoration set empty; and so no reachable handler is inactive with a
    decoration shown. *)
Theorem inactive_means_undecorated :
  (forall h, exists h',
      convert h = Normal h' /\ active h' = false /\ decorations (editor h') = [])
  /\ (forall h h', step h h' -> active h = true -> active h' = false ->
                   decorations (editor h') = [])
  /\ (forall h, reachable h -> active h = false -> decorations (editor h) = []).
Proof.
  split; [|split].
  - intros h. destruct (convert_deactivates h) as (h' & E & Ha & Hd & _). eauto.
  - intros h h' S Ha Ha'. apply (step_preserves h h' S); [|assumption].
    intros H. congruence.
  - intros h R. induction R as [e a He | h h' R IH S].
    + intros _. exact He.
    + exact (step_preserves h h' S IH).
Qed.

Lemma inactive_means_undecorated_witness :
  decorations (editor (outcome (convert typedZZ))) = []
  /\ decorations (editor (newTextEditorAbbrevHandler (editor (outcome (convert typedZZ)))
                                                      abbreviatorA)) = [].
Proof.
  destruct inactive_means_undecorated as (_ & H2 & H3). split.
  - apply (H2 typedZZ (outcome (convert typedZZ)));
      [apply step_convert | reflexivity | reflexivity].
  - apply H3; [apply reachable_new; reflexivity | reflexivity].
Defined.

(** C1. The abbreviation [zz] is no key of the table [{"a": "X"}], no key
    starts with it, and neither it nor its prefix [z] resolves. Typing the
    space that completes the span [\zz] makes [convert] queue a replace of that
    span whose text is the [null] that [findReplacement] returned. *)
Theorem convert_queues_edit_for_unresolved_span :
  tr_get (allTranslations abbreviatorA) (u "zz") = None
  /\ existsb (fun k => startsWith k (u "zz")) (keys (allTranslations abbreviatorA))
     = false
  /\ findReplacement (allTranslations abbreviatorA) (u "z") = None
  /\ findReplacement (allTranslations abbreviatorA) (u "zz") = None
  /\ onChanged typedZZ [{| Change.text := u " " |}] = convert typedZZ
  /\ convert typedZZ
     = Normal {| active := false;
                 editor := {| document := [u "\zz "];
                              selections := [Selection.at_ (pos 0 3)];
                              decorations := [];
                              edits := [];
                              timers := [[{| location := span 0 0 3;
                                             value := None |}]] |};
                 abbreviator := abbreviatorA |}.
Proof.
  repeat split; reflexivity.
Qed.

(** C2, as the code has it. On a change event that carries at least one content
    change while some cursor has a non-empty selection, a handler (inactive and
    undecorated, or active) ends inactive with an empty decoration set, tracks
    no span and has issued no edit. *)
Theorem onChanged_range_selection_deactivates
    (h : TextEditorAbbrevHandler) (ev : TextDocumentChangeEvent) :
  ev <> [] ->
  (exists s, In s (selections (editor h)) /\ Selection.isEmpty s = false) ->
  (active h = false -> decorations (editor h) = []) ->
  exists h',
    onChanged h ev = Normal h'
    /\ active h' = false
    /\ decorations (editor h') = []
    /\ (forall incr, getRangeInfo h' incr = Some [])
    /\ edits (editor h') = edits (editor h)
    /\ timers (editor h') = timers (editor h).
Proof.
  intros Hev Hsel Hinv. destruct ev as [|change rest]; [congruence|].
  assert (Hupd : forall h0 incr, selections (editor h0) = selections (editor h) ->
                                 update h0 incr = Normal (deactivate h0)).
  { intros h0 incr E. unfold update.
    rewrite getRangeInfo_range_selection; [reflexivity | now rewrite E]. }
  assert (Hconv : convert h = Normal (deactivate h)).
  { unfold convert. now rewrite getRangeInfo_range_selection. }
  assert (Hfin : forall h0,
             editor h0 = editor h ->
             active (deactivate h0) = false
             /\ decorations (editor (deactivate h0)) = []
             /\ (forall incr, getRangeInfo (deactivate h0) incr = Some [])
             /\ edits (editor (deactivate h0)) = edits (editor h)
             /\ timers (editor (deactivate h0)) = timers (editor h)).
  { intros h0 E. cbn. rewrite E. repeat split. }
  unfold onChanged. destruct (active h) eqn:Ha; cbn [negb].
  - destruct (jsstring_eqb _ _).
    + rewrite Hconv, (Hupd (setActive (deactivate h) true) 0%Z eq_refl). eexists. split; [reflexivity|].
      cbn. repeat split.
    + destruct (matchesCompleting _).
      * rewrite Hconv. eexists. split; [reflexivity | now apply Hfin].
      * destruct (jsstring_eqb _ _); rewrite (Hupd h _ eq_refl);
          (eexists; split; [reflexivity | now apply Hfin]).
  - destruct (jsstring_eqb _ _).
    + rewrite (Hupd (setActive h true) 1%Z eq_refl). eexists. split; [reflexivity|].
      cbn. repeat split.
    + exists h. split; [reflexivity|]. split; [assumption|].
      split; [now apply Hinv|]. split; [|split; reflexivity].
      intros incr. now apply getRangeInfo_inactive.
Qed.

Lemma onChanged_range_selection_deactivates_witness :
  exists h',
    onChanged selectedZZ [{| Change.text := u "y" |}] = Normal h'
    /\ active h' = false
    /\ decorations (editor h') = []
    /\ (forall incr, getRangeInfo h' incr = Some [])
    /\ edits (editor h') = edits (editor selectedZZ)
    /\ timers (editor h') = timers (editor selectedZZ).
Proof.
  apply (onChanged_range_selection_deactivates selectedZZ [{| Change.text := u "y" |}]).
  - discriminate.
  - exists {| Selection.anchor := pos 0 1; Selection.active := pos 0 3 |}.
    split; [left; reflexivity | reflexivity].
  - discriminate.
Defined.

(** C2 as stated fails on an event with more than one content change, which
    leaves the session active with both spans underlined, and on an event with
    no content change, which the handler ignores even with a range selected. *)
Lemma onChanged_two_changes_stays_active :
  onChanged twoCursors [{| Change.text := u "b" |}; {| Change.text := u "b" |}]
  = Normal {| active := true;
              editor := {| document := [u "\ab"; u "\ab"];
                           selections := [Selection.at_ (pos 0 2);
                                          Selection.at_ (pos 1 2)];
                           decorations := [span 0 0 3; span 1 0 3];
                           edits := [];
                           timers := [] |};
              abbreviator := abbreviatorA |}
  /\ onChanged selectedZZ [] = Normal selectedZZ
  /\ active selectedZZ = true
  /\ decorations (editor selectedZZ) <> [].
Proof.
  repeat split; try reflexivity. discriminate.
Qed.

(** ** Scanning for spans *)

Lemma forallb_nonWhiteSpace (s : jsstring) :
  forallb (fun d => negb (isWhiteSpace d)) s = true
  <-> Forall (fun d => isWhiteSpace d = false) s.
Proof.
  rewrite forallb_forall, Forall_forall. split; intros H d Hd.
  - apply negb_true_iff. now apply H.
  - apply negb_true_iff. now apply H.
Qed.

Lemma execLeaderRegex_some (t s : jsstring) :
  execLeaderRegex t = Some s ->
  exists pre suf, t = pre ++ s /\ s = backslash :: suf
                  /\ Forall (fun d => isWhiteSpace d = false) suf.
Proof.
  induction t as [|c t IH]; cbn [execLeaderRegex]; [discriminate|].
  destruct (N.eqb c backslash && forallb _ t) eqn:E.
  - intros [= <-]. apply andb_true_iff in E as [Ec Ef].
    apply N.eqb_eq in Ec. subst c.
    exists [], t. split; [reflexivity|]. split; [reflexivity|].
    now apply forallb_nonWhiteSpace.
  - intros H. destruct (IH H) as (pre & suf & -> & Hs & Hf).
    exists (c :: pre), suf. now split.
Qed.

Lemma execLeaderRegex_none (t : jsstring) :
  execLeaderRegex t = None -> ~ endsWithLeaderSpan t.
Proof.
  induction t as [|c t IH]; cbn [execLeaderRegex].
  - intros _ (pre & suf & E & _). now destruct pre.
  - destruct (N.eqb c backslash && forallb _ t) eqn:E; [discriminate|].
    intros H (pre & suf & Et & Hf). destruct pre as [|c' pre]; cbn in Et.
    + injection Et as -> ->. rewrite N.eqb_refl in E. cbn in E.
      apply forallb_nonWhiteSpace in Hf. congruence.
    + injection Et as -> ->. apply (IH H). now exists pre, suf.
Qed.

Lemma execLeaderRegex_iff (t : jsstring) :
  (exists s, execLeaderRegex t = Some s) <-> endsWithLeaderSpan t.
Proof.
  split.
  - intros [s H]. destruct (execLeaderRegex_some t s H) as (pre & suf & -> & -> & Hf).
    now exists pre, suf.
  - intros H. destruct (execLeaderRegex t) as [s|] eqn:E; [eauto|].
    now apply execLeaderRegex_none in E.
Qed.

(** What the loop reports comes from a cursor with a match. *)
Lemma rangeInfoLoop_sound (doc : TextDocument) (incr : Z) (sels : list Selection.t) :
  forall i ris,
    rangeInfoLoop doc incr i sels = Some ris ->
    forall ri, In ri ris ->
      exists j sel,
        nth_error sels j = Some sel
        /\ RangeInfo.index ri = i + j
        /\ execLeaderRegex (beforeCursor doc sel incr) = Some (RangeInfo.text ri)
        /\ RangeInfo.range ri
           = span (line (Selection.active sel))
                  (Z.to_nat (Z.of_nat (character (Selection.active sel)) + incr)
                   - length (RangeInfo.text ri))
                  (Z.to_nat (Z.of_nat (character (Selection.active sel)) + incr)).
Proof.
  induction sels as [|s sels IH]; intros i ris; cbn [rangeInfoLoop].
  - intros [= <-] ri [].
  - destruct (_ <? 0)%Z; [discriminate|].
    destruct (execLeaderRegex _) as [t|] eqn:E.
    + destruct (rangeInfoLoop doc incr (S i) sels) as [ris'|] eqn:R; [|discriminate].
      cbn [option_map]. intros [= <-] ri [<- | Hin].
      * exists 0, s. cbn. rewrite Nat.add_0_r. now repeat split.
      * destruct (IH _ _ R ri Hin) as (j & sel & Hn & Hi & Hrest).
        exists (S j), sel. split; [assumption|]. split; [lia | assumption].
    + intros R ri Hin. destruct (IH _ _ R ri Hin) as (j & sel & Hn & Hi & Hrest).
      exists (S j), sel. split; [assumption|]. split; [lia | assumption].
Qed.

(** Every cursor with a match is reported. *)
Lemma rangeInfoLoop_complete (doc : TextDocument) (incr : Z) (sels : list Selection.t) :
  forall i ris,
    rangeInfoLoop doc incr i sels = Some ris ->
    forall j sel,
      nth_error sels j = Some sel ->
      endsWithLeaderSpan (beforeCursor doc sel incr) ->
      exists ri, In ri ris /\ RangeInfo.index ri = i + j.
Proof.
  induction sels as [|s sels IH]; intros i ris; cbn [rangeInfoLoop].
  - intros _ [|j] sel; discriminate.
  - destruct (_ <? 0)%Z; [discriminate|].
    fold (beforeCursor doc s incr).
    destruct (execLeaderRegex (beforeCursor doc s incr)) as [t|] eqn:E.
    + destruct (rangeInfoLoop doc incr (S i) sels) as [ris'|] eqn:R; [|discriminate].
      cbn [option_map]. intros [= <-] [|j] sel Hn Hs.
      * eexists. split; [left; reflexivity|]. cbn. lia.
      * destruct (IH _ _ R j sel Hn Hs) as (ri & Hin & Hi).
        exists ri. split; [now right | lia].
    + intros R [|j] sel Hn Hs.
      * injection Hn as <-. now apply execLeaderRegex_none in E.
      * destruct (IH _ _ R j sel Hn Hs) as (ri & Hin & Hi).
        exists ri. split; [assumption | lia].
Qed.

Lemma rangeInfoLoop_NoDup (doc : TextDocument) (incr : Z) (sels : list Selection.t) :
  forall i ris,
    rangeInfoLoop doc incr i sels = Some ris ->
    NoDup (map RangeInfo.index ris).
Proof.
  induction sels as [|s sels IH]; intros i ris; cbn [rangeInfoLoop].
  - intros [= <-]. constructor.
  - destruct (_ <? 0)%Z; [discriminate|].
    destruct (execLeaderRegex _) as [t|]; [|apply IH].
    destruct (rangeInfoLoop doc incr (S i) sels) as [ris'|] eqn:R; [|discriminate].
    cbn [option_map]. intros [= <-]. cbn [map RangeInfo.index]. constructor.
    + intros Hin. apply in_map_iff in Hin as (ri & Hi & Hin).
      destruct (rangeInfoLoop_sound doc incr sels _ _ R ri Hin) as (j & _ & _ & Hj & _).
      lia.
    + now apply (IH (S i)).
Qed.

Lemma isEmpty_isSingleLine (s : Selection.t) :
  Selection.isEmpty s = true -> Selection.isSingleLine s = true.
Proof.
  unfold Selection.isEmpty, Selection.positionEqb, Selection.isSingleLine.
  intros H. now apply andb_true_iff in H as [H _].
Qed.

Lemma getRangeInfo_scan (h : TextEditorAbbrevHandler) (incr : Z) :
  active h = true ->
  (forall s, In s (selections (editor h)) -> Selection.isEmpty s = true) ->
  getRangeInfo h incr
  = rangeInfoLoop (document (editor h)) incr 0 (selections (editor h)).
Proof.
  intros Ha Hsel. unfold getRangeInfo. rewrite Ha. cbn [negb].
  replace (existsb _ (selections (editor h))) with false; [reflexivity|].
  symmetry. apply not_true_is_false. intros H.
  apply existsb_exists in H as (s & Hin & Hs).
  rewrite (Hsel s Hin), (isEmpty_isSingleLine s (Hsel s Hin)) in Hs. discriminate.
Qed.

(** C10, as the code has it. [getRangeInfo] never reads the leader: whatever
    the leader of the handler, when the handler is active, every selection is
    empty and no cursor is moved before the start of its line, a span is
    reported at a cursor exactly when the text of the line up to that cursor,
    moved by [incrCursor], ends with a backslash followed by zero or more
    non-whitespace characters. So when the leader is typed into an inactive
    handler, which calls [update(1)], the tracking of a span starts exactly
    when every selection is empty and, for some cursor, the text of its line
    up to one character after the cursor ends in that way, whether the leader
    is a backslash or not and however long it is. *)
Theorem getRangeInfo_scans_for_backslash (h : TextEditorAbbrevHandler) :
  (forall incr,
      active h = true ->
      (forall s, In s (selections (editor h)) -> Selection.isEmpty s = true) ->
      (forall s, In s (selections (editor h)) ->
                 (0 <= Z.of_nat (character (Selection.active s)) + incr)%Z) ->
      exists ris,
        getRangeInfo h incr = Some ris
        /\ forall i sel,
             nth_error (selections (editor h)) i = Some sel ->
             ((exists ri, In ri ris /\ RangeInfo.index ri = i)
              <-> endsWithLeaderSpan (beforeCursor (document (editor h)) sel incr)))
  /\ (forall change rest,
        active h = false ->
        Change.text change = leader (abbreviator h) ->
        exists h',
          onChanged h (change :: rest) = Normal h'
          /\ (active h' = true
              <-> (forall s, In s (selections (editor h)) -> Selection.isEmpty s = true)
                  /\ exists s, In s (selections (editor h))
                               /\ endsWithLeaderSpan
                                    (beforeCursor (document (editor h)) s 1))).
Proof.
  split.
  - intros incr Ha Hsel Hpos.
    destruct (rangeInfoLoop_total (document (editor h)) incr _ Hpos 0) as [ris R].
    exists ris. rewrite (getRangeInfo_scan h incr Ha Hsel). split; [assumption|].
    intros i sel Hn. split.
    + intros (ri & Hin & Hi).
      destruct (rangeInfoLoop_sound _ _ _ _ _ R ri Hin) as (j & sel' & Hn' & Hj & E & _).
      cbn in Hj. rewrite Hi in Hj. subst j. rewrite Hn in Hn'. injection Hn' as <-.
      apply execLeaderRegex_iff. eauto.
    + intros Hs. apply (rangeInfoLoop_complete _ _ _ _ _ R i sel Hn Hs).
  - intros change rest Ha Ht. unfold onChanged. rewrite Ha, Ht, jsstring_eqb_refl.
    cbn [negb]. unfold update.
    destruct (getRangeInfo (setActive h true) 1) as [[|ri ris]|] eqn:E.
    + eexists. split; [reflexivity|]. cbn [deactivate active]. split; [discriminate|].
      intros (Hsel & s & Hin & Hs). exfalso.
      rewrite (getRangeInfo_scan (setActive h true) 1 eq_refl Hsel) in E. cbn in E.
      apply In_nth_error in Hin as [i Hn].
      destruct (rangeInfoLoop_complete _ _ _ _ _ E i s Hn Hs) as (ri & [] & _).
    + destruct (updateLoop _ _ _) as [replacements ris'].
      eexists. split; [reflexivity|]. cbn [active setActive]. split; [|reflexivity].
      intros _.
      assert (Hsel : forall s, In s (selections (editor h)) -> Selection.isEmpty s = true).
      { intros s Hin. destruct (Selection.isEmpty s) eqn:Es; [reflexivity|].
        rewrite (getRangeInfo_range_selection (setActive h true) 1) in E;
          [discriminate | now exists s]. }
      split; [assumption|].
      rewrite (getRangeInfo_scan (setActive h true) 1 eq_refl Hsel) in E. cbn in E.
      destruct (rangeInfoLoop_sound _ _ _ _ _ E ri (or_introl eq_refl))
        as (j & sel & Hn & _ & Hx & _).
      exists sel. split; [eapply nth_error_In; eassumption|].
      apply execLeaderRegex_iff. eauto.
    + destruct (getRangeInfo_total (setActive h true) 1) as [ris E']; [lia | congruence].
Qed.

Lemma getRangeInfo_scans_for_backslash_witness :
  (exists ris,
      getRangeInfo typedZZ 0 = Some ris
      /\ forall i sel,
           nth_error (selections (editor typedZZ)) i = Some sel ->
           ((exists ri, In ri ris /\ RangeInfo.index ri = i)
            <-> endsWithLeaderSpan (beforeCursor (document (editor typedZZ)) sel 0)))
  /\ exists h',
       onChanged commaLeader [{| Change.text := u "," |}] = Normal h'
       /\ (active h' = true
           <-> (forall s, In s (selections (editor commaLeader)) ->
                          Selection.isEmpty s = true)
               /\ exists s, In s (selections (editor commaLeader))
                            /\ endsWithLeaderSpan
                                 (beforeCursor (document (editor commaLeader)) s 1)).
Proof.
  split.
  - apply (proj1 (getRangeInfo_scans_for_backslash typedZZ) 0%Z).
    + reflexivity.
    + intros s [<- | []]. reflexivity.
    + intros s [<- | []]. cbn. lia.
  - apply (proj2 (getRangeInfo_scans_for_backslash commaLeader)
                 {| Change.text := u "," |} []); reflexivity.
Defined.

(** The leader [,\] of two characters typed into an empty line: the text with
    the leader ends with a backslash, but [update(1)] reads one character
    after the cursor only, and the handler does not start tracking. *)
Example two_character_leader_reads_one :
  onChanged commaBackslashLeader [{| Change.text := u ",\" |}]
  = Normal commaBackslashLeader
  /\ endsWithLeaderSpan (getTextInLine (document (editor commaBackslashLeader)) 0 0 2)
  /\ execLeaderRegex (beforeCursor (document (editor commaBackslashLeader))
                                   (Selection.at_ (pos 0 0)) 1) = None.
Proof.
  split; [reflexivity|]. split; [|reflexivity].
  exists (u ","), []. split; [reflexivity | constructor].
Qed.

(** C10 as stated fails: with the leader [,] the comma typed after [\a]
    activates the handler, and the scanner finds and underlines the span
    [\a,]. *)
Lemma comma_leader_tracks_backslash_span :
  leader (abbreviator commaLeader) <> [backslash]
  /\ onChanged commaLeader [{| Change.text := u "," |}]
     = Normal {| active := true;
                 editor := {| document := [u "\a,"];
                              selections := [Selection.at_ (pos 0 2)];
                              decorations := [span 0 0 3];
                              edits := [];
                              timers := [] |};
                 abbreviator := abbreviator commaLeader |}
  /\ getRangeInfo (setActive commaLeader true) 1
     = Some [{| RangeInfo.index := 0;
                RangeInfo.selection := Selection.at_ (pos 0 2);
                RangeInfo.range := span 0 0 3;
                RangeInfo.text := u "\a," |}].
Proof.
  repeat split; try reflexivity. discriminate.
Qed.

Lemma getTextInLine_length (doc : TextDocument) (ln to : nat) :
  length (getTextInLine doc ln 0 to) <= to.
Proof.
  unfold getTextInLine. rewrite length_firstn. lia.
Qed.

(** Everything the loop says about one reported span. *)
Lemma rangeInfoLoop_shape (doc : TextDocument) (incr : Z) (sels : list Selection.t) :
  forall i ris,
    rangeInfoLoop doc incr i sels = Some ris ->
    forall ri, In ri ris ->
      exists j,
        RangeInfo.index ri = i + j
        /\ nth_error sels j = Some (RangeInfo.selection ri)
        /\ (0 <= Z.of_nat (character (Selection.active (RangeInfo.selection ri))) + incr)%Z
        /\ execLeaderRegex (beforeCursor doc (RangeInfo.selection ri) incr)
           = Some (RangeInfo.text ri)
        /\ RangeInfo.range ri
           = span (line (Selection.active (RangeInfo.selection ri)))
                  (Z.to_nat (Z.of_nat (character (Selection.active
                                                    (RangeInfo.selection ri))) + incr)
                   - length (RangeInfo.text ri))
                  (Z.to_nat (Z.of_nat (character (Selection.active
                                                    (RangeInfo.selection ri))) + incr)).
Proof.
  induction sels as [|s sels IH]; intros i ris; cbn [rangeInfoLoop].
  - intros [= <-] ri [].
  - destruct (Z.ltb_spec (Z.of_nat (character (Selection.active s)) + incr) 0)
      as [|Hge]; [discriminate|].
    destruct (execLeaderRegex _) as [t|] eqn:E.
    + destruct (rangeInfoLoop doc incr (S i) sels) as [ris'|] eqn:R; [|discriminate].
      cbn [option_map]. intros [= <-] ri [<- | Hin].
      * exists 0. cbn. rewrite Nat.add_0_r. now repeat split.
      * destruct (IH _ _ R ri Hin) as (j & Hi & Hrest).
        exists (S j). split; [lia | exact Hrest].
    + intros R ri Hin. destruct (IH _ _ R ri Hin) as (j & Hi & Hrest).
      exists (S j). split; [lia | exact Hrest].
Qed.

(** ** Bracket pairs *)

(** Case split on the lookup in [hackyReplacements] and on the test of the
    closing text. *)
Ltac bracket_cases :=
  match goal with
  | |- context [hackyLookup ?o ?k] =>
      destruct (hackyLookup o k) as [?replacement|];
      [match goal with
       | |- context [if truthyString (right ?r) then ?a else false] =>
           destruct (if truthyString (right r) then a else false)
       end|]
  end.

Lemma updateLoop_replacements (doc : TextDocument) (ldr : jsstring)
    (ris : list RangeInfo.t) :
  fst (updateLoop doc ldr ris)
  = flat_map (fun ri => match bracketFor doc ldr ri with
                        | Some b => [b]
                        | None => []
                        end) ris.
Proof.
  induction ris as [|ri ris IH]; [reflexivity|].
  cbn [updateLoop flat_map]. rewrite <- IH.
  destruct (updateLoop doc ldr ris) as [reps ris']. unfold bracketFor.
  bracket_cases; reflexivity.
Qed.

Lemma updateLoop_spans (doc : TextDocument) (ldr : jsstring)
    (ris : list RangeInfo.t) :
  snd (updateLoop doc ldr ris)
  = map (fun ri => match bracketFor doc ldr ri with
                   | Some b => resetSpan ri b
                   | None => ri
                   end) ris.
Proof.
  induction ris as [|ri ris IH]; [reflexivity|].
  cbn [updateLoop map]. rewrite <- IH.
  destruct (updateLoop doc ldr ris) as [reps ris']. unfold bracketFor.
  bracket_cases; reflexivity.
Qed.

Lemma bracketFor_index (doc : TextDocument) (ldr : jsstring) (ri : RangeInfo.t)
    (b : BracketEdit) :
  bracketFor doc ldr ri = Some b -> be_index b = RangeInfo.index ri.
Proof.
  unfold bracketFor. bracket_cases; try discriminate.
  now intros [= <-].
Qed.

Lemma replacements_from_spans (doc : TextDocument) (ldr : jsstring)
    (ris : list RangeInfo.t) (b : BracketEdit) :
  In b (fst (updateLoop doc ldr ris)) <->
  exists ri, In ri ris /\ bracketFor doc ldr ri = Some b.
Proof.
  rewrite updateLoop_replacements, in_flat_map. split.
  - intros (ri & Hin & Hb). exists ri. split; [assumption|].
    destruct (bracketFor doc ldr ri); [|destruct Hb].
    destruct Hb as [<- | []]. reflexivity.
  - intros (ri & Hin & Hb). exists ri. split; [assumption|].
    rewrite Hb. now left.
Qed.

Lemma replacements_NoDup (doc : TextDocument) (ldr : jsstring)
    (ris : list RangeInfo.t) :
  NoDup (map RangeInfo.index ris) ->
  NoDup (map be_index (fst (updateLoop doc ldr ris))).
Proof.
  rewrite updateLoop_replacements.
  induction ris as [|ri ris IH]; cbn [map flat_map]; intros Hnd; [constructor|].
  inversion Hnd as [|? ? Hnin Hnd']; subst.
  destruct (bracketFor doc ldr ri) as [b|] eqn:Eb; cbn [app map]; [|now apply IH].
  constructor; [|now apply IH].
  intros Hin. apply in_map_iff in Hin as (b' & Hi & Hin).
  apply in_flat_map in Hin as (ri' & Hin' & Hb').
  destruct (bracketFor doc ldr ri') as [b''|] eqn:Eb'; [|destruct Hb'].
  destruct Hb' as [<- | []].
  apply Hnin. apply in_map_iff. exists ri'. split; [|assumption].
  rewrite <- (bracketFor_index _ _ _ _ Eb'), Hi. now apply bracketFor_index in Eb.
Qed.

Lemma index_injective (ris : list RangeInfo.t) (a b : RangeInfo.t) :
  NoDup (map RangeInfo.index ris) -> In a ris -> In b ris ->
  RangeInfo.index a = RangeInfo.index b -> a = b.
Proof.
  induction ris as [|r ris IH]; cbn [map In]; [tauto|].
  intros Hnd Ha Hb E. inversion Hnd as [|? ? Hnin Hnd']; subst.
  destruct Ha as [-> | Ha], Hb as [-> | Hb]; [reflexivity | | | now apply IH].
  - exfalso. apply Hnin. rewrite E. now apply in_map.
  - exfalso. apply Hnin. rewrite <- E. now apply in_map.
Qed.

Lemma setNth_length (ss : list Selection.t) (i : nat) (s : Selection.t) :
  length (setNth ss i s) = length ss.
Proof.
  revert i. induction ss as [|x ss IH]; intros [|i]; cbn; try reflexivity.
  now rewrite IH.
Qed.

Lemma setNth_same (ss : list Selection.t) (i : nat) (s : Selection.t) :
  i < length ss -> nth_error (setNth ss i s) i = Some s.
Proof.
  revert i. induction ss as [|x ss IH]; intros [|i]; cbn; try lia; [reflexivity|].
  intros H. apply IH. lia.
Qed.

Lemma setNth_other (ss : list Selection.t) (i j : nat) (s : Selection.t) :
  i <> j -> nth_error (setNth ss i s) j = nth_error ss j.
Proof.
  revert i j. induction ss as [|x ss IH]; intros [|i] [|j] H; cbn; try reflexivity.
  - congruence.
  - apply IH. congruence.
Qed.

Lemma moveCursors_other (replacements : list BracketEdit) :
  forall ss i,
    (forall b, In b replacements -> be_index b <> i) ->
    nth_error (moveCursors ss replacements) i = nth_error ss i.
Proof.
  induction replacements as [|r reps IH]; intros ss i H; [reflexivity|].
  unfold moveCursors in *. cbn [fold_left]. rewrite IH.
  - apply setNth_other. apply H. now left.
  - intros b Hb. apply H. now right.
Qed.

Lemma moveCursors_moved (replacements : list BracketEdit) :
  forall ss b,
    NoDup (map be_index replacements) ->
    In b replacements ->
    be_index b < length ss ->
    nth_error (moveCursors ss replacements) (be_index b)
    = Some (Selection.at_ (be_pos b)).
Proof.
  induction replacements as [|r reps IH]; intros ss b Hnd Hin Hlt; [destruct Hin|].
  cbn [map] in Hnd. inversion Hnd as [|? ? Hnin Hnd']; subst.
  unfold moveCursors in *. cbn [fold_left]. destruct Hin as [-> | Hin].
  - fold (moveCursors (setNth ss (be_index b) (Selection.at_ (be_pos b))) reps).
    rewrite moveCursors_other; [now apply setNth_same|].
    intros b' Hb' E. apply Hnin. rewrite <- E. now apply in_map.
  - apply IH; [assumption | assumption | now rewrite setNth_length].
Qed.

Lemma getRangeInfo_from_loop (h : TextEditorAbbrevHandler) (incr : Z)
    (ris : list RangeInfo.t) (ri : RangeInfo.t) :
  getRangeInfo h incr = Some ris -> In ri ris ->
  rangeInfoLoop (document (editor h)) incr 0 (selections (editor h)) = Some ris.
Proof.
  unfold getRangeInfo. destruct (negb (active h)); [now intros [= <-]|].
  destruct (existsb _ _); [now intros [= <-] | tauto].
Qed.

Lemma hackyLookup_curly (ldr : jsstring) :
  hackyLookup (hackyReplacements ldr) (ldr ++ u "{{")
  = Some {| repl := curlyPair; right := Some (u "}}") |}.
Proof. cbn. now rewrite jsstring_eqb_refl. Qed.

Lemma hackyLookup_square (ldr : jsstring) :
  hackyLookup (hackyReplacements ldr) (ldr ++ u "[[")
  = Some {| repl := squarePair; right := Some (u "]]") |}.
Proof. cbn. now rewrite jsstring_eqb_app, jsstring_eqb_refl. Qed.

Lemma hackyLookup_angle (ldr : jsstring) :
  hackyLookup (hackyReplacements ldr) (ldr ++ u "<>")
  = Some {| repl := anglePair; right := None |}.
Proof. cbn. now rewrite !jsstring_eqb_app, jsstring_eqb_refl. Qed.

Lemma translate_0 (p : Position) : translate p 0 = p.
Proof. destruct p. unfold translate. cbn. now rewrite Nat.add_0_r. Qed.

(** The three keys of [hackyReplacements] are two characters longer than the
    leader. *)
Lemma hackyLookup_some_length (ldr t : jsstring) (r : HackyReplacement) :
  hackyLookup (hackyReplacements ldr) t = Some r -> length t = length ldr + 2.
Proof.
  cbn [hackyReplacements hackyLookup].
  destruct (jsstring_eqb (ldr ++ u "{{") t) eqn:E1;
    [|destruct (jsstring_eqb (ldr ++ u "[[") t) eqn:E2;
      [|destruct (jsstring_eqb (ldr ++ u "<>") t) eqn:E3; [|discriminate]]];
    intros _;
    match goal with
    | H : jsstring_eqb _ t = true |- _ => apply jsstring_eqb_eq in H; rewrite <- H
    end; now rewrite length_app.
Qed.

(** Two reported spans of the same length that start at the same place are
    the same text over the same range. *)
Lemma spans_same_start (doc : TextDocument) (incr : Z) (sels : list Selection.t)
    (i : nat) (ris : list RangeInfo.t) (ri ri' : RangeInfo.t) :
  rangeInfoLoop doc incr i sels = Some ris ->
  In ri ris -> In ri' ris ->
  start (RangeInfo.range ri') = start (RangeInfo.range ri) ->
  length (RangeInfo.text ri') = length (RangeInfo.text ri) ->
  RangeInfo.range ri' = RangeInfo.range ri /\ RangeInfo.text ri' = RangeInfo.text ri.
Proof.
  intros R Hin Hin' Hs Hl.
  destruct (rangeInfoLoop_shape _ _ _ _ _ R ri Hin) as (j & _ & _ & _ & Hx & Hr).
  destruct (rangeInfoLoop_shape _ _ _ _ _ R ri' Hin') as (j' & _ & _ & _ & Hx' & Hr').
  destruct (execLeaderRegex_some _ _ Hx) as (pre & suf & Hb & _).
  destruct (execLeaderRegex_some _ _ Hx') as (pre' & suf' & Hb' & _).
  pose proof (getTextInLine_length doc
                (line (Selection.active (RangeInfo.selection ri)))
                (Z.to_nat (Z.of_nat (character (Selection.active
                                                  (RangeInfo.selection ri))) + incr)))
    as Hle.
  pose proof (getTextInLine_length doc
                (line (Selection.active (RangeInfo.selection ri')))
                (Z.to_nat (Z.of_nat (character (Selection.active
                                                  (RangeInfo.selection ri'))) + incr)))
    as Hle'.
  unfold beforeCursor in Hb, Hb', Hx, Hx'.
  rewrite Hb, length_app in Hle. rewrite Hb', length_app in Hle'.
  rewrite Hr, Hr' in Hs. unfold span, pos in Hs. cbn [start] in Hs.
  injection Hs as Hline Hchar.
  assert (Hc : Z.to_nat (Z.of_nat (character (Selection.active
                                                (RangeInfo.selection ri'))) + incr)
               = Z.to_nat (Z.of_nat (character (Selection.active
                                                  (RangeInfo.selection ri))) + incr))
    by lia.
  rewrite Hline, Hc in Hx'. rewrite Hx in Hx'. injection Hx' as Ht.
  split; [|now symmetry].
  rewrite Hr, Hr', Hline, Hc, Ht. reflexivity.
Qed.

(** Whether a span is expanded depends on its text and its range only. *)
Lemma bracketFor_none_same (doc : TextDocument) (ldr : jsstring)
    (ri ri' : RangeInfo.t) :
  RangeInfo.range ri' = RangeInfo.range ri ->
  RangeInfo.text ri' = RangeInfo.text ri ->
  bracketFor doc ldr ri = None -> bracketFor doc ldr ri' = None.
Proof.
  unfold bracketFor. intros -> ->. bracket_cases; [reflexivity | discriminate | reflexivity].
Qed.

Lemma bracketFor_start (doc : TextDocument) (ldr : jsstring) (ri : RangeInfo.t)
    (b : BracketEdit) :
  bracketFor doc ldr ri = Some b ->
  start (be_range b) = start (RangeInfo.range ri)
  /\ exists r, hackyLookup (hackyReplacements ldr) (RangeInfo.text ri) = Some r.
Proof.
  unfold bracketFor.
  destruct (hackyLookup (hackyReplacements ldr) (RangeInfo.text ri)) as [r|];
    [|discriminate].
  destruct (if truthyString (right r) then _ else false); [discriminate|].
  intros [= <-]. split; [reflexivity | eauto].
Qed.

Lemma update_bracket (h : TextEditorAbbrevHandler) (incr : Z)
    (ris : list RangeInfo.t) (ri : RangeInfo.t) :
  getRangeInfo h incr = Some ris -> In ri ris ->
  exists h',
    update h incr = Normal h'
    /\ active h' = true
    /\ timers (editor h') = timers (editor h)
    /\ match bracketFor (document (editor h)) (leader (abbreviator h)) ri with
       | Some b => expandedBy h h' ri (be_repl b) (be_range b)
                   /\ be_pos b = translate (start (RangeInfo.range ri)) 1
       | None =>
           length (RangeInfo.text ri) = length (leader (abbreviator h)) + 2 ->
           leftAlone h h' ris ri
       end.
Proof.
  intros E Hin.
  pose proof (getRangeInfo_from_loop h incr ris ri E Hin) as R.
  pose proof (rangeInfoLoop_NoDup _ _ _ _ _ R) as Hnd.
  assert (Hlt : RangeInfo.index ri < length (selections (editor h))).
  { destruct (rangeInfoLoop_sound _ _ _ _ _ R ri Hin) as (j & sel & Hn & Hj & _).
    cbn in Hj. rewrite Hj. apply nth_error_Some. congruence. }
  assert (Ha : active h = true).
  { destruct ris as [|r0 rs]; [destruct Hin|].
    exact (getRangeInfo_some_active h incr r0 rs E). }
  pose proof (updateLoop_replacements (document (editor h)) (leader (abbreviator h)) ris)
    as Hreps.
  pose proof (updateLoop_spans (document (editor h)) (leader (abbreviator h)) ris)
    as Hspans.
  pose proof (replacements_NoDup (document (editor h)) (leader (abbreviator h)) ris Hnd)
    as Hnd'.
  pose proof (replacements_from_spans (document (editor h)) (leader (abbreviator h)) ris)
    as Hfrom.
  unfold update, leftAlone, expandedBy. rewrite E.
  destruct ris as [|r0 rs]; [destruct Hin|]. remember (r0 :: rs) as ris' eqn:Eris.
  clear Eris r0 rs.
  destruct (updateLoop (document (editor h)) (leader (abbreviator h)) ris')
    as [reps spans]. cbn [fst snd] in *.
  eexists. split; [reflexivity|]. cbn [active editor]. split; [assumption|].
  split; [destruct (negb _); reflexivity|].
  destruct (bracketFor (document (editor h)) (leader (abbreviator h)) ri) as [b|] eqn:Eb.
  - assert (Hb : In b reps) by (apply Hfrom; eauto).
    assert (Hne : negb (length reps =? 0) = true) by (destruct reps; [destruct Hb | reflexivity]).
    rewrite Hne. cbn [setDecorations bracketEdit edits selections decorations].
    pose proof (bracketFor_index _ _ _ _ Eb) as Hi.
    assert (Hpos : be_pos b = translate (start (RangeInfo.range ri)) 1).
    { revert Eb. unfold bracketFor. bracket_cases; try discriminate.
      now intros [= <-]. }
    split; [|assumption]. split; [|split].
    + eexists. split; [reflexivity|].
      apply in_map_iff. exists b. split; [reflexivity | assumption].
    + rewrite <- Hi, <- Hpos. fold (moveCursors (selections (editor h)) reps).
      apply moveCursors_moved; [assumption | assumption | now rewrite Hi].
    + apply in_map_iff. exists (resetSpan ri b).
      split; [cbn; now rewrite Hpos|].
      rewrite Hspans. apply in_map_iff. exists ri. cbv beta. rewrite Eb.
      now split.
  - intros Hkey.
    assert (Hno : forall b, In b reps -> be_index b <> RangeInfo.index ri).
    { intros b Hb Hi. apply Hfrom in Hb as (ri' & Hin' & Eb').
      rewrite (bracketFor_index _ _ _ _ Eb') in Hi.
      rewrite (index_injective _ _ _ Hnd Hin' Hin Hi) in Eb'. congruence. }
    assert (Hstart : forall b, In b reps ->
                               start (be_range b) <> start (RangeInfo.range ri)
                               /\ exists ri',
                                    In ri' ris'
                                    /\ RangeInfo.index ri' <> RangeInfo.index ri
                                    /\ start (be_range b)
                                       = start (RangeInfo.range ri')).
    { intros b Hb. pose proof (Hno b Hb) as Hi.
      apply Hfrom in Hb as (ri' & Hin' & Eb').
      destruct (bracketFor_start _ _ _ _ Eb') as (Hs' & r & Hr).
      split.
      - intros Hs. apply hackyLookup_some_length in Hr.
        destruct (spans_same_start _ _ _ _ _ ri ri' R Hin Hin') as [Hrange Htext];
          [congruence | congruence |].
        rewrite (bracketFor_none_same _ _ ri ri' Hrange Htext Eb) in Eb'.
        discriminate.
      - exists ri'. split; [assumption|]. split; [|assumption].
        now rewrite <- (bracketFor_index _ _ _ _ Eb'). }
    split; [|split; [assumption|split]].
    + destruct (negb _); cbn [setDecorations bracketEdit edits].
      * eexists. split; [reflexivity|].
        intros batch r [<- | []] Hr. apply in_map_iff in Hr as (b & <- & Hb).
        cbn [location]. now apply Hstart.
      * exists []. split; [now rewrite app_nil_r | intros batch r []].
    + destruct (negb _); [|reflexivity].
      cbn [setDecorations bracketEdit selections].
      fold (moveCursors (selections (editor h)) reps).
      now apply moveCursors_other.
    + destruct (negb _); cbn [setDecorations decorations];
        apply in_map; rewrite Hspans; apply in_map_iff; exists ri; cbv beta;
        rewrite Eb; now split.
Qed.

(** C7. For every span that [update] finds while the handler is active: a span
    whose text is the leader followed by [{{] (by [[[]) is replaced at once, in
    an edit handed to the editor by that very call, by the pair U+2983 U+2984
    (U+27E6 U+27E7), with its cursor set after the opening glyph, exactly when
    the two characters after the span are [}}] (are []]]); the replaced range
    then runs from the start of the span to the end of that closing text.
    Otherwise the span is left alone: no edit of the call replaces text
    starting at the span, its cursor stays and it stays underlined. A span
    whose text is the leader followed by [<>] is always replaced, over its own
    range, by U+27E8 U+27E9. *)
Theorem update_expands_bracket_pairs (h : TextEditorAbbrevHandler) (incr : Z)
    (ris : list RangeInfo.t) (ri : RangeInfo.t) :
  getRangeInfo h incr = Some ris -> In ri ris ->
  exists h',
    update h incr = Normal h'
    /\ active h' = true
    /\ timers (editor h') = timers (editor h)
    /\ (RangeInfo.text ri = leader (abbreviator h) ++ u "{{" ->
        (closingText h ri = u "}}" ->
         expandedBy h h' ri curlyPair
           {| start := start (RangeInfo.range ri);
              end_ := translate (end_ (RangeInfo.range ri)) 2 |})
        /\ (closingText h ri <> u "}}" -> leftAlone h h' ris ri))
    /\ (RangeInfo.text ri = leader (abbreviator h) ++ u "[[" ->
        (closingText h ri = u "]]" ->
         expandedBy h h' ri squarePair
           {| start := start (RangeInfo.range ri);
              end_ := translate (end_ (RangeInfo.range ri)) 2 |})
        /\ (closingText h ri <> u "]]" -> leftAlone h h' ris ri))
    /\ (RangeInfo.text ri = leader (abbreviator h) ++ u "<>" ->
        expandedBy h h' ri anglePair (RangeInfo.range ri)).
Proof.
  intros E Hin.
  destruct (update_bracket h incr ris ri E Hin) as (h' & Hu & Ha & Ht & Hb).
  exists h'. split; [assumption|]. split; [assumption|]. split; [assumption|].
  unfold bracketFor in Hb. unfold closingText.
  split; [|split]; intros Htext; rewrite Htext in Hb.
  - rewrite hackyLookup_curly in Hb. cbn [right truthyString rightLength repl] in Hb.
    change (length (u "}}")) with 2 in Hb. split.
    + intros Hc. rewrite Hc in Hb. cbn in Hb. apply Hb.
    + intros Hc. cbn [strictEq option_map] in Hb.
      rewrite (proj2 (jsstring_eqb_neq (u "}}") _)) in Hb
        by (intros Heq; now symmetry in Heq).
      apply Hb. now rewrite length_app.
  - rewrite hackyLookup_square in Hb. cbn [right truthyString rightLength repl] in Hb.
    change (length (u "]]")) with 2 in Hb. split.
    + intros Hc. rewrite Hc in Hb. cbn in Hb. apply Hb.
    + intros Hc. cbn [strictEq option_map] in Hb.
      rewrite (proj2 (jsstring_eqb_neq (u "]]") _)) in Hb
        by (intros Heq; now symmetry in Heq).
      apply Hb. now rewrite length_app.
  - rewrite hackyLookup_angle in Hb. cbn [right truthyString rightLength repl] in Hb.
    cbn [be_repl be_range] in Hb. rewrite translate_0 in Hb.
    destruct (RangeInfo.range ri). apply Hb.
Qed.

Lemma update_expands_bracket_pairs_witness :
  (exists h', update (tracking (u "\{{}}") 2) 1 = Normal h'
              /\ expandedBy (tracking (u "\{{}}") 2) h' (spanOf (u "\{{") 2)
                            curlyPair (span 0 0 5))
  /\ (exists h', update (tracking (u "\[[] ") 2) 1 = Normal h'
                 /\ leftAlone (tracking (u "\[[] ") 2) h'
                              [spanOf (u "\[[") 2] (spanOf (u "\[[") 2))
  /\ (exists h', update (tracking (u "\<>") 2) 1 = Normal h'
                 /\ expandedBy (tracking (u "\<>") 2) h' (spanOf (u "\<>") 2)
                               anglePair (span 0 0 3)).
Proof.
  split; [|split].
  - destruct (update_expands_bracket_pairs
                (tracking (u "\{{}}") 2) 1 [spanOf (u "\{{") 2] (spanOf (u "\{{") 2))
      as (h' & Hu & _ & _ & Hc & _); [reflexivity | left; reflexivity |].
    exists h'. split; [exact Hu|]. apply Hc; reflexivity.
  - destruct (update_expands_bracket_pairs
                (tracking (u "\[[] ") 2) 1 [spanOf (u "\[[") 2] (spanOf (u "\[[") 2))
      as (h' & Hu & _ & _ & _ & Hc & _); [reflexivity | left; reflexivity |].
    exists h'. split; [exact Hu|]. apply Hc; [reflexivity | discriminate].
  - destruct (update_expands_bracket_pairs
                (tracking (u "\<>") 2) 1 [spanOf (u "\<>") 2] (spanOf (u "\<>") 2))
      as (h' & Hu & _ & _ & _ & _ & Hc); [reflexivity | left; reflexivity |].
    exists h'. split; [exact Hu|]. apply Hc; reflexivity.
Defined.

(** The second [{] typed before [}}]: the change is no completing text, and
    the handler replaces [\{{}}] by the pair and puts the cursor inside it. *)
Example onChanged_curly_pair :
  matchesCompleting (u "{") = false
  /\ onChanged (tracking (u "\{{}}") 2) [{| Change.text := u "{" |}]
     = Normal {| active := true;
                 editor := {| document := [u "\{{}}"];
                              selections := [Selection.at_ (pos 0 1)];
                              decorations := [span 0 1 1];
                              edits := [[{| location := span 0 0 5;
                                            value := Some (Str curlyPair) |}]];
                              timers := [] |};
                 abbreviator := abbreviatorA |}.
Proof. split; reflexivity. Qed.

(** * Further properties *)

(** ** The flattened table *)

Lemma keys_overwrite (o : Translations) (k v : jsstring) :
  keys (overwrite o k v) = keys o.
Proof.
  induction o as [|[k0 v0] o IH]; cbn [overwrite keys map fst]; [reflexivity|].
  destruct (jsstring_eqb k0 k); cbn [map fst]; [reflexivity|].
  f_equal. exact IH.
Qed.

Lemma keys_insertIndexKey (n : N) (k v : jsstring) (o : Translations) :
  Permutation (keys (insertIndexKey n k v o)) (k :: keys o).
Proof.
  induction o as [|[k0 v0] o IH]; cbn [insertIndexKey keys map fst]; [reflexivity|].
  destruct (arrayIndex k0) as [m|]; [destruct (m <? n)%N|]; try reflexivity.
  cbn [map fst]. fold (keys (insertIndexKey n k v o)). fold (keys o).
  rewrite IH. apply perm_swap.
Qed.

Lemma keys_tr_set (o : Translations) (k v : jsstring) :
  if hasKey o k then keys (tr_set o k v) = keys o
  else Permutation (keys (tr_set o k v)) (k :: keys o).
Proof.
  unfold tr_set. destruct (hasKey o k); [apply keys_overwrite|].
  destruct (arrayIndex k); [apply keys_insertIndexKey|].
  unfold keys. rewrite map_app. cbn [map fst].
  symmetry. apply Permutation_cons_append.
Qed.

Lemma tr_set_In (o : Translations) (k v k' : jsstring) :
  In k' (keys (tr_set o k v)) <-> k' = k \/ In k' (keys o).
Proof.
  pose proof (keys_tr_set o k v) as H. destruct (hasKey o k) eqn:E.
  - rewrite H. apply hasKey_In in E. split; [tauto|]. intros [-> | Hin]; assumption.
  - split.
    + intros Hin. apply (Permutation_in _ H) in Hin. destruct Hin; auto.
    + intros Hin. apply (Permutation_in _ (Permutation_sym H)).
      destruct Hin as [-> | Hin]; [now left | now right].
Qed.

Lemma tr_set_NoDup (o : Translations) (k v : jsstring) :
  NoDup (keys o) -> NoDup (keys (tr_set o k v)).
Proof.
  intros Hnd. pose proof (keys_tr_set o k v) as H. destruct (hasKey o k) eqn:E.
  - now rewrite H.
  - apply (Permutation_NoDup (Permutation_sym H)). constructor; [|assumption].
    rewrite <- hasKey_In. congruence.
Qed.

Lemma spread_In (target source : Translations) (k : jsstring) :
  In k (keys (spread target source)) <-> In k (keys target) \/ In k (keys source).
Proof.
  revert target. induction source as [|[k0 v0] source IH]; intros target.
  - cbn. tauto.
  - unfold spread in *. cbn [fold_left fst snd keys map]. rewrite IH, tr_set_In.
    fold (keys source). cbn [In]. intuition congruence.
Qed.

Lemma spread_NoDup (target source : Translations) :
  NoDup (keys target) -> NoDup (keys (spread target source)).
Proof.
  revert target. induction source as [|[k0 v0] source IH]; intros target Hnd.
  - exact Hnd.
  - unfold spread in *. cbn [fold_left fst snd]. apply IH. now apply tr_set_NoDup.
Qed.

Lemma tr_assign_In (o : Translations) (k v k' : jsstring) :
  ~ In (u "__proto__") (keys o) ->
  In k' (keys (tr_assign o k v))
  <-> (k' = k /\ k <> u "__proto__") \/ In k' (keys o).
Proof.
  intros Hp. unfold tr_assign. destruct (jsstring_eqb k (u "__proto__")) eqn:E.
  - apply jsstring_eqb_eq in E. subst k.
    assert (Hk : hasKey o (u "__proto__") = false).
    { destruct (hasKey o (u "__proto__")) eqn:Hk; [|reflexivity].
      apply hasKey_In in Hk. contradiction. }
    rewrite Hk. cbn [negb andb]. tauto.
  - cbn [andb]. rewrite tr_set_In. apply jsstring_eqb_neq in E. tauto.
Qed.

Lemma tr_assign_NoDup (o : Translations) (k v : jsstring) :
  NoDup (keys o) -> NoDup (keys (tr_assign o k v)).
Proof.
  intros Hnd. unfold tr_assign. destruct (_ && _); [assumption|].
  now apply tr_set_NoDup.
Qed.

Lemma tr_own_assign (o : Translations) (k v k' : jsstring) :
  ~ In (u "__proto__") (keys o) ->
  tr_own (tr_assign o k v) k'
  = if jsstring_eqb k k' && negb (jsstring_eqb k (u "__proto__")) then Some v
    else tr_own o k'.
Proof.
  intros Hp. unfold tr_assign. destruct (jsstring_eqb k (u "__proto__")) eqn:E.
  - apply jsstring_eqb_eq in E. subst k.
    assert (Hk : hasKey o (u "__proto__") = false).
    { destruct (hasKey o (u "__proto__")) eqn:Hk; [|reflexivity].
      apply hasKey_In in Hk. contradiction. }
    rewrite Hk. cbn [negb andb]. now rewrite andb_false_r.
  - cbn [negb andb]. rewrite andb_true_r. apply tr_own_set.
Qed.

Lemma objectAssign_In (source : Translations) :
  forall (target : Translations) (k : jsstring),
    ~ In (u "__proto__") (keys target) ->
    In k (keys (objectAssign target source))
    <-> In k (keys target) \/ (In k (keys source) /\ k <> u "__proto__").
Proof.
  induction source as [|[k0 v0] source IH]; intros target k Hp.
  - cbn. tauto.
  - unfold objectAssign in *. cbn [fold_left fst snd keys map].
    rewrite IH.
    + rewrite (tr_assign_In target k0 v0 k Hp). fold (keys source). cbn [In].
      split; [intros [[[-> H] | H] | [H1 H2]] | intros [H | [[<- | H1] H2]]]; tauto.
    + rewrite (tr_assign_In target k0 v0 _ Hp). intros [[<- H] | H]; tauto.
Qed.

Lemma objectAssign_NoDup (source : Translations) :
  forall target, NoDup (keys target) -> NoDup (keys (objectAssign target source)).
Proof.
  induction source as [|[k0 v0] source IH]; intros target Hnd; [exact Hnd|].
  unfold objectAssign in *. cbn [fold_left fst snd]. apply IH.
  now apply tr_assign_NoDup.
Qed.

Lemma tr_own_objectAssign (source : Translations) :
  forall (target : Translations) (k : jsstring),
    NoDup (keys source) ->
    ~ In (u "__proto__") (keys target) ->
    tr_own (objectAssign target source) k
    = if jsstring_eqb k (u "__proto__") then None
      else match tr_own source k with
           | Some v => Some v
           | None => tr_own target k
           end.
Proof.
  induction source as [|[k0 v0] source IH]; intros target k Hnd Hp.
  - cbn [objectAssign fold_left tr_own].
    destruct (jsstring_eqb k (u "__proto__")) eqn:E; [|reflexivity].
    apply jsstring_eqb_eq in E. subst k. now apply tr_own_none_key.
  - cbn [keys map fst] in Hnd. inversion Hnd as [|? ? Hnin Hnd']; subst.
    unfold objectAssign in *. cbn [fold_left fst snd]. rewrite IH.
    + destruct (jsstring_eqb k (u "__proto__")) eqn:E; [reflexivity|].
      rewrite (tr_own_assign target k0 v0 k Hp), tr_own_eqb.
      destruct (jsstring_eqb k0 k) eqn:E0; [|reflexivity].
      apply jsstring_eqb_eq in E0. subst k0. rewrite E. cbn [negb andb].
      now rewrite (proj2 (tr_own_none_key source k) Hnin).
    + assumption.
    + rewrite (tr_assign_In target k0 v0 _ Hp). intros [[<- H] | H]; tauto.
Qed.

(** X1. The keys of the tables the constructor builds, whatever the two
    tables it is given: [translations] holds every key of the base table
    except [__proto__], and [allTranslations] holds these and every key of
    the override table; neither holds another key, and neither holds a key
    twice. *)
Theorem newLeanInputAbbreviator_keys (ldr : jsstring) (custom base : Translations) :
  let a := newLeanInputAbbreviator ldr custom base in
  NoDup (keys (translations a))
  /\ NoDup (keys (allTranslations a))
  /\ (forall k, In k (keys (translations a))
                <-> In k (keys base) /\ k <> u "__proto__")
  /\ (forall k, In k (keys (allTranslations a))
                <-> (In k (keys base) /\ k <> u "__proto__") \/ In k (keys custom)).
Proof.
  cbn [newLeanInputAbbreviator translations allTranslations].
  assert (Hin : forall k, In k (keys (objectAssign [] base))
                          <-> In k (keys base) /\ k <> u "__proto__").
  { intros k. rewrite (objectAssign_In base [] k) by (intros []). cbn. tauto. }
  split; [apply objectAssign_NoDup; constructor|].
  split; [unfold mergeTranslations; apply spread_NoDup, spread_NoDup; constructor|].
  split; [exact Hin|].
  intros k. unfold mergeTranslations. rewrite !spread_In, Hin. cbn. tauto.
Qed.

(** X2. The tables the constructor builds from well-formed tables, read at an
    abbreviation [k]. [translations] owns what the base table owns, except
    [__proto__]; [allTranslations] owns what the override table owns and
    otherwise what [translations] owns. So the read [allTranslations[k]] gives
    the symbol of the override table when that owns [k]; otherwise it gives
    what the read of the base table gives, except at [__proto__], where it
    gives the inherited member; and it gives [undefined] when neither table
    owns [k] and [k] names no member of [Object.prototype]. *)
Theorem newLeanInputAbbreviator_lookup (ldr : jsstring) (custom base : Translations)
    (k : jsstring) :
  NoDup (keys base) -> NoDup (keys custom) ->
  let a := newLeanInputAbbreviator ldr custom base in
  tr_own (translations a) k
  = (if jsstring_eqb k (u "__proto__") then None else tr_own base k)
  /\ tr_own (allTranslations a) k
     = match tr_own custom k with
       | Some v => Some v
       | None => tr_own (translations a) k
       end
  /\ tr_get (allTranslations a) k
     = match tr_own custom k with
       | Some v => Some (Str v)
       | None => if jsstring_eqb k (u "__proto__") then Some (Member k)
                 else tr_get base k
       end
  /\ (tr_own custom k = None -> tr_own base k = None -> isInherited k = false ->
      tr_get (allTranslations a) k = None).
Proof.
  intros Hb Hc a.
  assert (Hcopy : tr_own (translations a) k
                  = if jsstring_eqb k (u "__proto__") then None else tr_own base k).
  { cbn [a newLeanInputAbbreviator translations].
    rewrite (tr_own_objectAssign base [] k Hb) by (intros []).
    destruct (jsstring_eqb k (u "__proto__")); [reflexivity|].
    now destruct (tr_own base k). }
  assert (Hall : tr_own (allTranslations a) k
                 = match tr_own custom k with
                   | Some v => Some v
                   | None => tr_own (translations a) k
                   end).
  { cbn [a newLeanInputAbbreviator allTranslations translations].
    apply mergeTranslations_get; [|assumption].
    apply objectAssign_NoDup. constructor. }
  assert (Hread : tr_get (allTranslations a) k
                  = match tr_own custom k with
                    | Some v => Some (Str v)
                    | None => if jsstring_eqb k (u "__proto__") then Some (Member k)
                              else tr_get base k
                    end).
  { unfold tr_get. rewrite Hall, Hcopy. destruct (tr_own custom k); [reflexivity|].
    destruct (jsstring_eqb k (u "__proto__")) eqn:E; [|reflexivity].
    apply jsstring_eqb_eq in E. now subst k. }
  split; [exact Hcopy|]. split; [exact Hall|]. split; [exact Hread|].
  intros Hc0 Hb0 Hi. rewrite Hread, Hc0.
  destruct (jsstring_eqb k (u "__proto__")) eqn:E.
  - apply jsstring_eqb_eq in E. subst k. discriminate.
  - unfold tr_get. now rewrite Hb0, Hi.
Qed.

Lemma newLeanInputAbbreviator_lookup_witness :
  tr_get (allTranslations (newLeanInputAbbreviator [backslash] greekCustom protoBase))
         (u "a") = Some (Str (u "Z"))
  /\ tr_get (allTranslations (newLeanInputAbbreviator [backslash] greekCustom protoBase))
            (u "b") = Some (Str (u "B"))
  /\ tr_own (translations (newLeanInputAbbreviator [backslash] greekCustom protoBase))
            (u "__proto__") = None
  /\ tr_get (allTranslations (newLeanInputAbbreviator [backslash] greekCustom protoBase))
            (u "__proto__") = Some (Member (u "__proto__"))
  /\ tr_get (allTranslations (newLeanInputAbbreviator [backslash] greekCustom protoBase))
            (u "zz") = None.
Proof.
  assert (Hb : NoDup (keys protoBase)).
  { repeat constructor; cbn; intuition discriminate. }
  assert (Hc : NoDup (keys greekCustom)).
  { repeat constructor; cbn; intuition discriminate. }
  split; [|split; [|split; [|split]]].
  - destruct (newLeanInputAbbreviator_lookup [backslash] greekCustom protoBase
                (u "a") Hb Hc) as (_ & _ & H & _). exact H.
  - destruct (newLeanInputAbbreviator_lookup [backslash] greekCustom protoBase
                (u "b") Hb Hc) as (_ & _ & H & _). exact H.
  - destruct (newLeanInputAbbreviator_lookup [backslash] greekCustom protoBase
                (u "__proto__") Hb Hc) as (H & _). exact H.
  - destruct (newLeanInputAbbreviator_lookup [backslash] greekCustom protoBase
                (u "__proto__") Hb Hc) as (_ & _ & H & _). exact H.
  - destruct (newLeanInputAbbreviator_lookup [backslash] greekCustom protoBase
                (u "zz") Hb Hc) as (_ & _ & _ & H). apply H; reflexivity.
Defined.

(** ** Resolution beyond one step *)

Lemma startsWith_app (k P S : jsstring) :
  startsWith k (P ++ S) = true -> startsWith k P = true.
Proof.
  intros H. apply startsWith_prefix in H as [t ->].
  apply startsWith_prefix. exists (S ++ t). now rewrite app_assoc.
Qed.

Lemma no_extension_app (T : Translations) (P S : jsstring) :
  (forall k, In k (keys T) -> startsWith k P = false) ->
  forall k, In k (keys T) -> startsWith k (P ++ S) = false.
Proof.
  intros H k Hin. destruct (startsWith k (P ++ S)) eqn:E; [|reflexivity].
  apply startsWith_app in E. rewrite (H k Hin) in E. discriminate.
Qed.

Lemma no_extension_not_own (T : Translations) (A : jsstring) :
  (forall k, In k (keys T) -> startsWith k A = false) -> tr_own T A = None.
Proof.
  intros H. apply tr_own_none_key. intros Hin.
  specialize (H A Hin). rewrite startsWith_refl in H. discriminate.
Qed.

Lemma no_extension_undefined (T : Translations) (A : jsstring) :
  (forall k, In k (keys T) -> startsWith k A = false) ->
  isInherited A = false ->
  tr_get T A = None.
Proof.
  intros H Hi. rewrite (tr_get_not_own T A (no_extension_not_own T A H)).
  now rewrite Hi.
Qed.

Lemma startsWith_snoc (s p : jsstring) (d : jschar) :
  startsWith s p = true -> startsWith (s ++ [d]) p = true.
Proof.
  intros H. apply startsWith_prefix in H as [t ->].
  apply startsWith_prefix. exists (t ++ [d]). now rewrite app_assoc.
Qed.

Lemma truthy_append (v : Defined) (c : jschar) (S : jsstring) :
  truthy (Some (Str (toPrimitiveString v ++ c :: S))) = true.
Proof. now destruct (toPrimitiveString v). Qed.

(** X3. The unmatched rest of an abbreviation is kept whole: when [P] resolves
    to a truthy value, no key starts with [P] followed by the character [c],
    and [P] followed by [c] and any part of the further characters [S] names
    no member of [Object.prototype], then [P] followed by [c] and [S] resolves
    to that value as a string, followed by [c] and [S]. *)
Theorem findReplacement_keeps_unmatched_suffix
    (T : Translations) (P S : jsstring) (c : jschar) (v : Defined) :
  findReplacement T P = Some v ->
  truthy (Some v) = true ->
  (forall k, In k (keys T) -> startsWith k (P ++ [c]) = false) ->
  (forall S1, startsWith S S1 = true -> isInherited (P ++ c :: S1) = false) ->
  findReplacement T (P ++ c :: S) = Some (Str (toPrimitiveString v ++ c :: S)).
Proof.
  intros HP Hv Hno. induction S as [|d S IH] using rev_ind; intros Hinh.
  - assert (HA : P ++ [c] <> []) by (now destruct P).
    destruct (findReplacement_prefix_fallback T (P ++ [c]) HA
                (no_extension_undefined T _ Hno (Hinh [] eq_refl)) Hno) as (H & _).
    specialize (H v Hv). rewrite removelast_last, last_last in H. now apply H.
  - assert (Hno' : forall k, In k (keys T) ->
                             startsWith k ((P ++ c :: S) ++ [d]) = false).
    { intros k Hin. replace ((P ++ c :: S) ++ [d]) with ((P ++ [c]) ++ S ++ [d])
        by (now rewrite <- !app_assoc).
      exact (no_extension_app T (P ++ [c]) (S ++ [d]) Hno k Hin). }
    assert (HA : (P ++ c :: S) ++ [d] <> []) by (now destruct (P ++ c :: S)).
    assert (Hi : isInherited ((P ++ c :: S) ++ [d]) = false).
    { replace ((P ++ c :: S) ++ [d]) with (P ++ c :: S ++ [d])
        by (now rewrite <- app_assoc).
      apply Hinh, startsWith_refl. }
    destruct (findReplacement_prefix_fallback T _ HA
                (no_extension_undefined T _ Hno' Hi) Hno') as (H & _).
    specialize (H (Str (toPrimitiveString v ++ c :: S)) (truthy_append v c S)).
    rewrite removelast_last, last_last in H. cbn [toPrimitiveString] in H.
    replace (P ++ c :: S ++ [d]) with ((P ++ c :: S) ++ [d])
      by (now rewrite <- app_assoc).
    replace (toPrimitiveString v ++ c :: S ++ [d])
      with ((toPrimitiveString v ++ c :: S) ++ [d])
      by (now rewrite <- app_assoc).
    apply H, IH. intros S1 H1. apply Hinh. now apply startsWith_snoc.
Qed.

Lemma findReplacement_keeps_unmatched_suffix_witness :
  findReplacement greekBase (u "alpha" ++ u "!?") = Some (Str (u "A" ++ u "!?")).
Proof.
  apply (findReplacement_keeps_unmatched_suffix greekBase (u "alpha") (u "?")
           33%N (Str (u "A"))).
  - reflexivity.
  - reflexivity.
  - intros k [<- | [<- | [<- | []]]]; reflexivity.
  - intros S1 H. apply startsWith_prefix in H as [t H].
    destruct S1 as [|x [|y S1]]; [reflexivity | | discriminate].
    injection H as <- _. reflexivity.
Defined.

(** In a table without empty symbols a replacement is never the empty
    string. *)
Lemma findReplacement_truthy_result (T : Translations) (A : jsstring) (v : Defined) :
  noEmptySymbol T -> findReplacement T A = Some v -> truthy (Some v) = true.
Proof.
  intros Ht. destruct A as [|d A] using rev_ind.
  - now rewrite findReplacement_equation_1.
  - clear IHA. assert (HA : A ++ [d] <> []) by (now destruct A).
    rewrite (findReplacement_nonempty T _ HA).
    destruct (truthy (tr_get T (A ++ [d]))) eqn:E.
    + intros H. now rewrite H in E.
    + assert (Hrec : match findReplacement T (removelast (A ++ [d])) with
                     | Some v0 =>
                         if truthy (Some v0)
                         then Some (Str (toPrimitiveString v0 ++ [last (A ++ [d]) 0%N]))
                         else None
                     | None => None
                     end = Some v -> truthy (Some v) = true).
      { destruct (findReplacement T (removelast (A ++ [d]))) as [v0|];
          [|discriminate].
        destruct (truthy (Some v0)); [|discriminate].
        intros [= <-]. apply truthy_append. }
      destruct (shortestExtensionLoop T (A ++ [d])) as [[|x ext]|] eqn:L;
        [exact Hrec | | exact Hrec].
      pose proof (shortestExtensionLoop_some T _ _ HA L) as (l1 & l2 & Ek & _).
      assert (Hin : In (x :: ext) (keys T)) by (rewrite Ek; apply in_elt).
      intros H. rewrite <- H. exact (Ht _ Hin).
Qed.

(** Once a prefix resolves, every longer abbreviation resolves. *)
Lemma findReplacement_extends (T : Translations) (P : jsstring) (v : Defined) :
  noEmptySymbol T ->
  findReplacement T P = Some v ->
  forall t, exists v', findReplacement T (P ++ t) = Some v'.
Proof.
  intros Ht HP t. induction t as [|d t IH] using rev_ind.
  - rewrite app_nil_r. eauto.
  - destruct IH as [v0 H0]. rewrite app_assoc.
    assert (HA : (P ++ t) ++ [d] <> []) by (now destruct (P ++ t)).
    rewrite (findReplacement_nonempty T _ HA).
    destruct (truthy (tr_get T ((P ++ t) ++ [d]))) eqn:E.
    + destruct (tr_get T ((P ++ t) ++ [d])); [eauto | discriminate].
    + rewrite removelast_last, H0.
      rewrite (findReplacement_truthy_result T _ v0 Ht H0).
      destruct (shortestExtensionLoop T ((P ++ t) ++ [d])) as [[|x ext]|] eqn:L;
        [eauto | | eauto].
      pose proof (shortestExtensionLoop_some T _ _ HA L) as S.
      destruct (isShortestExtension_get T _ _ S) as [s ->]. eauto.
Qed.

Lemma findReplacement_unknown (T : Translations) (c : jschar) (r : jsstring) :
  (forall k, In k (keys T) -> startsWith k [c] = false) ->
  (forall P, P <> [] -> startsWith (c :: r) P = true -> isInherited P = false) ->
  findReplacement T (c :: r) = None.
Proof.
  intros Hno. induction r as [|d r IH] using rev_ind; intros Hinh.
  - destruct (findReplacement_prefix_fallback T [c]) as (_ & _ & H & _);
      [discriminate | | assumption |].
    + apply no_extension_undefined; [assumption|].
      apply Hinh; [discriminate | apply startsWith_refl].
    + apply H. apply findReplacement_equation_1.
  - assert (Hno' : forall k, In k (keys T) -> startsWith k (c :: r ++ [d]) = false).
    { intros k Hin. apply (no_extension_app T [c] (r ++ [d]) Hno k Hin). }
    destruct (findReplacement_prefix_fallback T (c :: r ++ [d])) as (_ & _ & H & _);
      [discriminate | | assumption |].
    + apply no_extension_undefined; [assumption|].
      apply Hinh; [discriminate | apply startsWith_refl].
    + apply H. change (c :: r ++ [d]) with ((c :: r) ++ [d]).
      rewrite removelast_last. apply IH.
      intros P HP H1. apply Hinh; [assumption|].
      change (c :: r ++ [d]) with ((c :: r) ++ [d]). now apply startsWith_snoc.
Qed.

Lemma findReplacement_known_first (T : Translations) (c : jschar) (r k : jsstring) :
  noEmptySymbol T -> In k (keys T) -> startsWith k [c] = true ->
  exists v, findReplacement T (c :: r) = Some v.
Proof.
  intros Ht Hin Hk.
  assert (H : exists v, findReplacement T [c] = Some v).
  { rewrite (findReplacement_nonempty T [c]) by discriminate.
    destruct (truthy (tr_get T [c])) eqn:E.
    - destruct (tr_get T [c]); [eauto | discriminate].
    - destruct (shortestExtensionLoop_found T [c] k) as (x & ext & -> & S);
        [discriminate | assumption | assumption |].
      destruct (isShortestExtension_get T _ _ S) as [s ->]. eauto. }
  destruct H as [v Hv]. exact (findReplacement_extends T [c] v Ht Hv r).
Qed.

Lemma findReplacement_member_prefix (T : Translations) (P t : jsstring) :
  noEmptySymbol T -> P <> [] -> isInherited P = true ->
  exists v, findReplacement T (P ++ t) = Some v.
Proof.
  intros Ht HP Hi.
  assert (H : exists v, findReplacement T P = Some v).
  { rewrite (findReplacement_nonempty T P HP).
    assert (E : truthy (tr_get T P) = true).
    { unfold tr_get. destruct (tr_own T P) as [s|] eqn:Es; [|now rewrite Hi].
      rewrite <- (tr_get_own T P s Es). apply Ht.
      eapply tr_own_some_key; eassumption. }
    rewrite E. destruct (tr_get T P); [eauto | discriminate]. }
  destruct H as [v Hv]. exact (findReplacement_extends T P v Ht Hv t).
Qed.

(** X4. In a table without empty symbols, a non-empty abbreviation gets no
    replacement exactly when no key starts with its first character and none
    of its non-empty prefixes names a member of [Object.prototype]; and a
    replacement is never the empty string. *)
Theorem findReplacement_none_iff
    (T : Translations) (c : jschar) (r : jsstring) :
  noEmptySymbol T ->
  (findReplacement T (c :: r) = None
   <-> (forall k, In k (keys T) -> startsWith k [c] = false)
       /\ (forall P, P <> [] -> startsWith (c :: r) P = true ->
                     isInherited P = false))
  /\ (forall v, findReplacement T (c :: r) = Some v -> truthy (Some v) = true).
Proof.
  intros Ht. split; [split|].
  - intros Hnone. split.
    + intros k Hin. destruct (startsWith k [c]) eqn:E; [|reflexivity].
      destruct (findReplacement_known_first T c r k Ht Hin E) as [v Hv]. congruence.
    + intros P HP H1. destruct (isInherited P) eqn:Hi; [|reflexivity].
      apply startsWith_prefix in H1 as [t H1].
      destruct (findReplacement_member_prefix T P t Ht HP Hi) as [v Hv].
      rewrite <- H1 in Hv. congruence.
  - intros [Hno Hinh]. now apply findReplacement_unknown.
  - intros v. now apply findReplacement_truthy_result.
Qed.

Lemma findReplacement_none_iff_witness :
  (findReplacement greekBase (u "zeta") = None
   <-> (forall k, In k (keys greekBase) -> startsWith k (u "z") = false)
       /\ (forall P, P <> [] -> startsWith (u "zeta") P = true ->
                     isInherited P = false))
  /\ (forall v, findReplacement greekBase (u "zeta") = Some v ->
                truthy (Some v) = true).
Proof.
  apply (findReplacement_none_iff greekBase 122%N (u "eta")).
  intros k [<- | [<- | [<- | []]]]; reflexivity.
Defined.

(** The abbreviation [constructorx] in the table [{"a": "X"}]: no key starts
    with [c], yet the prefix [constructor] reads as the function [Object], and
    the replacement is the source text of that function followed by [x]. *)
Example findReplacement_constructorx :
  findReplacement [(u "a", u "X")] (u "constructorx")
  = Some (Str (u "function Object() { [native code] }x")).
Proof. reflexivity. Qed.

(** ** Completing text *)

Lemma closerAtEnd_tails (s : jsstring) :
  existsb closerAtEnd (tails s) = endsWithCloser s.
Proof.
  induction s as [|c s IH]; [reflexivity|].
  cbn [tails existsb]. rewrite IH. unfold endsWithCloser.
  destruct s as [|b [|b' s]].
  - cbn. now rewrite orb_false_r.
  - cbn [closerAtEnd last]. destruct (isCloser b); [apply orb_true_r|].
    now rewrite andb_false_r.
  - reflexivity.
Qed.

(** X5. A change completes the tracked abbreviations exactly when its text
    begins with a whitespace character or ends with [)], [}] or U+27E9; what
    stands before that last character plays no part, so the text [{}] of an
    auto-closed brace completes too. *)
Theorem matchesCompleting_first_or_last (s : jsstring) :
  matchesCompleting s = startsWithWhiteSpace s || endsWithCloser s.
Proof.
  unfold matchesCompleting. rewrite closerAtEnd_tails. reflexivity.
Qed.

(** ** The spans of [getRangeInfo] *)

(** X6. The match of the span pattern is the longest end of the text that
    starts with a backslash and holds no whitespace: it is such an end, and
    every end of the text that starts with a backslash followed by
    non-whitespace characters only is no longer. *)
Theorem execLeaderRegex_longest (t s : jsstring) :
  execLeaderRegex t = Some s ->
  (exists pre suf,
      t = pre ++ s /\ s = backslash :: suf
      /\ Forall (fun d => isWhiteSpace d = false) s)
  /\ (forall pre' suf',
        t = pre' ++ backslash :: suf' ->
        Forall (fun d => isWhiteSpace d = false) suf' ->
        length (backslash :: suf') <= length s).
Proof.
  intros H. split.
  - destruct (execLeaderRegex_some t s H) as (pre & suf & Et & Es & Hf).
    exists pre, suf. split; [assumption|]. split; [assumption|].
    rewrite Es. constructor; [reflexivity | assumption].
  - revert s H. induction t as [|c t IH]; intros s; cbn [execLeaderRegex];
      [discriminate|].
    destruct (N.eqb c backslash && forallb _ t) eqn:E.
    + intros [= <-] pre' suf' Et _. rewrite Et, length_app. lia.
    + intros H [|c' pre'] suf' Et Hf; cbn in Et.
      * injection Et as -> ->. rewrite N.eqb_refl in E. cbn in E.
        apply forallb_nonWhiteSpace in Hf. congruence.
      * injection Et as -> ->. now apply (IH s H pre' suf').
Qed.

Lemma execLeaderRegex_longest_witness :
  length (backslash :: u "b") <= length (u "\a\b").
Proof.
  destruct (execLeaderRegex_longest (u "x \a\b") (u "\a\b") eq_refl) as (_ & H).
  apply (H (u "x \a") (u "b")); [reflexivity|].
  repeat constructor.
Defined.

Lemma rangeInfoLoop_sorted (doc : TextDocument) (incr : Z) (sels : list Selection.t) :
  forall i ris,
    rangeInfoLoop doc incr i sels = Some ris ->
    StronglySorted lt (map RangeInfo.index ris) /\ length ris <= length sels.
Proof.
  induction sels as [|s sels IH]; intros i ris; cbn [rangeInfoLoop].
  - intros [= <-]. split; [constructor | reflexivity].
  - destruct (_ <? 0)%Z; [discriminate|].
    destruct (execLeaderRegex _) as [t|].
    + destruct (rangeInfoLoop doc incr (S i) sels) as [ris'|] eqn:R; [|discriminate].
      cbn [option_map]. intros [= <-]. destruct (IH _ _ R) as [Hs Hl].
      split; [|cbn; lia]. cbn [map RangeInfo.index]. constructor; [assumption|].
      apply Forall_forall. intros n Hn. apply in_map_iff in Hn as (ri & <- & Hin).
      destruct (rangeInfoLoop_shape doc incr sels _ _ R ri Hin) as (j & Hj & _). lia.
    + intros R. destruct (IH _ _ R) as [Hs Hl]. split; [assumption | cbn; lia].
Qed.

(** The size and the first character of a reported span. *)
Lemma getRangeInfo_span_size (h : TextEditorAbbrevHandler) (incr : Z)
    (ris : list RangeInfo.t) (ri : RangeInfo.t) :
  getRangeInfo h incr = Some ris -> In ri ris ->
  (exists suf, RangeInfo.text ri = backslash :: suf)
  /\ rangeSize (RangeInfo.range ri) = len (RangeInfo.text ri).
Proof.
  intros E Hin.
  pose proof (getRangeInfo_from_loop h incr ris ri E Hin) as R.
  destruct (rangeInfoLoop_shape _ _ _ _ _ R ri Hin) as (j & _ & _ & Hge & Hx & Hr).
  destruct (execLeaderRegex_some _ _ Hx) as (pre & suf & Hb & Ht & _).
  split; [eauto|].
  pose proof (getTextInLine_length (document (editor h))
                (line (Selection.active (RangeInfo.selection ri)))
                (Z.to_nat (Z.of_nat (character (Selection.active
                                                  (RangeInfo.selection ri))) + incr)))
    as Hle.
  unfold beforeCursor in Hb. rewrite Hb, length_app in Hle.
  rewrite Hr. unfold rangeSize, len. cbn. lia.
Qed.

(** X7. What [getRangeInfo] reports: at most one span per cursor, in the order
    of the cursors; each span belongs to an empty selection, its text starts
    with a backslash and holds no whitespace, and its range lies on the line
    of the cursor, ends at the cursor moved by [incrCursor] and is as long as
    the text. *)
Theorem getRangeInfo_spans (h : TextEditorAbbrevHandler) (incr : Z)
    (ris : list RangeInfo.t) :
  getRangeInfo h incr = Some ris ->
  StronglySorted lt (map RangeInfo.index ris)
  /\ length ris <= length (selections (editor h))
  /\ forall ri, In ri ris ->
       let sel := RangeInfo.selection ri in
       nth_error (selections (editor h)) (RangeInfo.index ri) = Some sel
       /\ Selection.isEmpty sel = true
       /\ (exists suf, RangeInfo.text ri = backslash :: suf)
       /\ Forall (fun d => isWhiteSpace d = false) (RangeInfo.text ri)
       /\ line (start (RangeInfo.range ri)) = line (Selection.active sel)
       /\ line (end_ (RangeInfo.range ri)) = line (Selection.active sel)
       /\ Z.of_nat (character (end_ (RangeInfo.range ri)))
          = (Z.of_nat (character (Selection.active sel)) + incr)%Z
       /\ rangeSize (RangeInfo.range ri) = len (RangeInfo.text ri).
Proof.
  intros E. destruct ris as [|r0 rs].
  - split; [constructor|]. split; [cbn; lia | intros ri []].
  - pose proof (getRangeInfo_from_loop h incr _ r0 E (or_introl eq_refl)) as R.
    destruct (rangeInfoLoop_sorted _ _ _ _ _ R) as [Hs Hl].
    split; [assumption|]. split; [assumption|].
    intros ri Hin sel.
    destruct (rangeInfoLoop_shape _ _ _ _ _ R ri Hin) as (j & Hj & Hn & Hge & Hx & Hr).
    cbn in Hj. subst j. fold sel in Hn, Hge, Hx, Hr.
    destruct (execLeaderRegex_some _ _ Hx) as (pre & suf & Hb & Ht & Hf).
    assert (Hlen : length (RangeInfo.text ri)
                   <= Z.to_nat (Z.of_nat (character (Selection.active sel)) + incr)).
    { pose proof (getTextInLine_length (document (editor h))
                    (line (Selection.active sel))
                    (Z.to_nat (Z.of_nat (character (Selection.active sel)) + incr)))
        as Hle.
      unfold beforeCursor in Hb. rewrite Hb, length_app in Hle. lia. }
    split; [assumption|]. split.
    + unfold getRangeInfo in E. destruct (negb (active h)); [discriminate|].
      destruct (existsb _ _) eqn:Ex; [discriminate|].
      destruct (Selection.isEmpty sel) eqn:Ee; [reflexivity|].
      assert (existsb (fun s => negb (Selection.isSingleLine s)
                                || negb (Selection.isEmpty s))
                      (selections (editor h)) = true); [|congruence].
      apply existsb_exists. exists sel.
      split; [eapply nth_error_In; eassumption|]. rewrite Ee. apply orb_true_r.
    + split; [eauto|]. split; [rewrite Ht; constructor; [reflexivity | assumption]|].
      rewrite Hr. cbn. split; [reflexivity|]. split; [reflexivity|].
      split; [lia|]. unfold rangeSize, len. cbn. lia.
Qed.


Lemma getRangeInfo_spans_witness :
  StronglySorted lt (map RangeInfo.index [spanOf (u "\zz") 3])
  /\ length [spanOf (u "\zz") 3] <= length (selections (editor typedZZ))
  /\ forall ri, In ri [spanOf (u "\zz") 3] ->
       let sel := RangeInfo.selection ri in
       nth_error (selections (editor typedZZ)) (RangeInfo.index ri) = Some sel
       /\ Selection.isEmpty sel = true
       /\ (exists suf, RangeInfo.text ri = backslash :: suf)
       /\ Forall (fun d => isWhiteSpace d = false) (RangeInfo.text ri)
       /\ line (start (RangeInfo.range ri)) = line (Selection.active sel)
       /\ line (end_ (RangeInfo.range ri)) = line (Selection.active sel)
       /\ Z.of_nat (character (end_ (RangeInfo.range ri)))
          = (Z.of_nat (character (Selection.active sel)) + 0)%Z
       /\ rangeSize (RangeInfo.range ri) = len (RangeInfo.text ri).
Proof.
  apply (getRangeInfo_spans typedZZ 0 [spanOf (u "\zz") 3]). reflexivity.
Defined.

(** X8. While the cursor moved by [incrCursor] stays within its line, the text
    of a reported span is the text the buffer holds in the range of the
    span. *)
Theorem getRangeInfo_text_in_buffer (h : TextEditorAbbrevHandler) (incr : Z)
    (ris : list RangeInfo.t) (ri : RangeInfo.t) :
  getRangeInfo h incr = Some ris -> In ri ris ->
  character (end_ (RangeInfo.range ri))
  <= length (nth (line (end_ (RangeInfo.range ri))) (document (editor h)) []) ->
  getText (document (editor h)) (RangeInfo.range ri) = RangeInfo.text ri.
Proof.
  intros E Hin Hle.
  pose proof (getRangeInfo_from_loop h incr ris ri E Hin) as R.
  destruct (rangeInfoLoop_shape _ _ _ _ _ R ri Hin) as (j & _ & _ & _ & Hx & Hr).
  destruct (execLeaderRegex_some _ _ Hx) as (pre & suf & Hb & _).
  rewrite Hr in Hle |- *. cbn in Hle.
  unfold getText, span, pos. cbn [start end_ line character].
  unfold beforeCursor, getTextInLine in Hb. unfold getTextInLine.
  remember (Z.to_nat (Z.of_nat (character (Selection.active (RangeInfo.selection ri)))
                      + incr)) as c eqn:Ec.
  remember (nth (line (Selection.active (RangeInfo.selection ri)))
                (document (editor h)) []) as l eqn:El.
  remember (RangeInfo.text ri) as s eqn:Es.
  cbn [Nat.min skipn] in Hb. rewrite Nat.sub_0_r, Nat.min_l in Hb by assumption.
  assert (Hlen : length pre + length s = c).
  { apply (f_equal (@length _)) in Hb.
    rewrite length_firstn, length_app, Nat.min_l in Hb by assumption. lia. }
  rewrite !Nat.min_l by lia.
  replace (c - (c - length s)) with (length s) by lia.
  replace (c - length s) with (length pre) by lia.
  rewrite <- (firstn_skipn c l), Hb, <- app_assoc.
  rewrite skipn_app, skipn_all, Nat.sub_diag. cbn [skipn app].
  rewrite firstn_app, firstn_all, Nat.sub_diag. cbn [firstn]. apply app_nil_r.
Qed.

Lemma getRangeInfo_text_in_buffer_witness :
  getText (document (editor typedZZ)) (RangeInfo.range (spanOf (u "\zz") 3))
  = RangeInfo.text (spanOf (u "\zz") 3).
Proof.
  apply (getRangeInfo_text_in_buffer typedZZ 0 [spanOf (u "\zz") 3]).
  - reflexivity.
  - left. reflexivity.
  - cbn. lia.
Defined.

(** ** Exceptions *)

Lemma rangeInfoLoop_none (doc : TextDocument) (incr : Z) (sels : list Selection.t) :
  forall i,
    rangeInfoLoop doc incr i sels = None
    <-> exists s, In s sels
                  /\ (Z.of_nat (character (Selection.active s)) + incr < 0)%Z.
Proof.
  induction sels as [|s sels IH]; intros i; cbn [rangeInfoLoop].
  - split; [discriminate | intros (s & [] & _)].
  - destruct (Z.ltb_spec (Z.of_nat (character (Selection.active s)) + incr) 0)
      as [Hlt | Hge].
    + split; [|reflexivity]. intros _. exists s. split; [now left | assumption].
    + assert (Hrest : rangeInfoLoop doc incr (S i) sels = None
                      <-> exists s0, In s0 (s :: sels)
                            /\ (Z.of_nat (character (Selection.active s0)) + incr < 0)%Z).
      { rewrite IH. split.
        - intros (s0 & Hin & Hs0). exists s0. split; [now right | assumption].
        - intros (s0 & [<- | Hin] & Hs0); [lia | eauto]. }
      destruct (execLeaderRegex _); [|exact Hrest].
      destruct (rangeInfoLoop doc incr (S i) sels) eqn:R; cbn [option_map].
      * split; [discriminate|]. intros H. apply Hrest in H. discriminate.
      * split; [|reflexivity]. intros _. now apply Hrest.
Qed.

Lemma getRangeInfo_none (h : TextEditorAbbrevHandler) (incr : Z) :
  getRangeInfo h incr = None
  <-> active h = true
      /\ allSelectionsEmpty h
      /\ exists s, In s (selections (editor h))
                   /\ (Z.of_nat (character (Selection.active s)) + incr < 0)%Z.
Proof.
  split.
  - intros H. assert (Ha : active h = true).
    { destruct (active h) eqn:Ha; [reflexivity|].
      rewrite (getRangeInfo_inactive h incr Ha) in H. discriminate. }
    assert (He : allSelectionsEmpty h).
    { intros s Hin. destruct (Selection.isEmpty s) eqn:Es; [reflexivity|].
      rewrite (getRangeInfo_range_selection h incr) in H; [discriminate | eauto]. }
    split; [assumption|]. split; [assumption|].
    rewrite (getRangeInfo_scan h incr Ha He) in H. now apply rangeInfoLoop_none in H.
  - intros (Ha & He & Hneg). rewrite (getRangeInfo_scan h incr Ha He).
    now apply rangeInfoLoop_none.
Qed.

Lemma update_throw_inv (h h' : TextEditorAbbrevHandler) (incr : Z) :
  update h incr = Throw h' -> h' = h /\ getRangeInfo h incr = None.
Proof.
  unfold update. destruct (getRangeInfo h incr) as [[|ri ris]|]; try discriminate.
  - destruct (updateLoop _ _ _). discriminate.
  - now intros [= <-].
Qed.

Lemma update_throw_intro (h : TextEditorAbbrevHandler) (incr : Z) :
  getRangeInfo h incr = None -> update h incr = Throw h.
Proof. intros H. unfold update. now rewrite H. Qed.

(** X9. [update] throws exactly when the handler is active, every selection is
    empty and [incrCursor] moves some cursor before the start of its line; the
    handler is then as it was. In every other case it returns. *)
Theorem update_throws_iff (h h' : TextEditorAbbrevHandler) (incr : Z) :
  update h incr = Throw h'
  <-> h' = h
      /\ active h = true
      /\ allSelectionsEmpty h
      /\ exists s, In s (selections (editor h))
                   /\ (Z.of_nat (character (Selection.active s)) + incr < 0)%Z.
Proof.
  split.
  - intros H. apply update_throw_inv in H as [-> H].
    split; [reflexivity | now apply getRangeInfo_none].
  - intros (-> & H). apply update_throw_intro. now apply getRangeInfo_none.
Qed.

Lemma update_throws_iff_witness : update atLineStart (-1) = Throw atLineStart.
Proof.
  apply (update_throws_iff atLineStart atLineStart (-1)).
  split; [reflexivity|]. split; [reflexivity|]. split.
  - intros s [<- | []]. reflexivity.
  - exists (Selection.at_ (pos 0 0)). split; [left; reflexivity | reflexivity].
Defined.

Lemma update_returns (h : TextEditorAbbrevHandler) (incr : Z) :
  (0 <= incr)%Z -> exists h', update h incr = Normal h'.
Proof.
  intros Hincr.
  destruct (update_cases h incr) as [[_ Hneg] | [Hu | (h' & Hu & _)]]; [lia | eauto..].
Qed.

(** X10. The only exception of the handler: [onChanged] throws exactly on a
    deletion (a first content change with empty text) received while active
    with a non-empty leader, every selection empty and some cursor at the
    start of its line; the handler is then as it was. [onSelectionChanged] and
    [convert] always return. *)
Theorem onChanged_throws_iff (h h' : TextEditorAbbrevHandler)
    (ev : TextDocumentChangeEvent) :
  (onChanged h ev = Throw h'
   <-> h' = h
       /\ (exists change rest, ev = change :: rest /\ Change.text change = [])
       /\ leader (abbreviator h) <> []
       /\ active h = true
       /\ allSelectionsEmpty h
       /\ cursorAtLineStart h)
  /\ (exists h1, onSelectionChanged h = Normal h1)
  /\ (exists h2, convert h = Normal h2).
Proof.
  split; [|split].
  - unfold onChanged. split.
    + destruct ev as [|change rest]; [discriminate|].
      destruct (active h) eqn:Ha; cbn [negb].
      * destruct (jsstring_eqb (Change.text change) (leader (abbreviator h))) eqn:El.
        -- destruct (convert_deactivates h) as (h1 & -> & _).
           destruct (update_returns (setActive h1 true) 0) as [h2 ->];
             [lia | discriminate].
        -- destruct (matchesCompleting _).
           ++ destruct (convert_deactivates h) as (h1 & -> & _). discriminate.
           ++ destruct (jsstring_eqb (Change.text change) []) eqn:Ee.
              ** apply jsstring_eqb_eq in Ee. intros H.
                 apply update_throw_inv in H as [-> H].
                 apply getRangeInfo_none in H as (_ & He & s & Hin & Hs).
                 split; [reflexivity|]. split; [eauto|]. split.
                 { intros Hl. rewrite Ee, Hl in El. discriminate. }
                 split; [reflexivity|]. split; [assumption|].
                 exists s. split; [assumption | lia].
              ** destruct (update_returns h (len (Change.text change))) as [h2 ->];
                   [unfold len; lia | discriminate].
      * destruct (jsstring_eqb _ _); [|discriminate].
        destruct (update_returns (setActive h true) 1) as [h2 ->]; [lia | discriminate].
    + intros (-> & (change & rest & -> & Ht) & Hl & Ha & He & s & Hin & Hs).
      rewrite Ha, Ht. cbn [negb].
      replace (jsstring_eqb [] (leader (abbreviator h))) with false
        by (symmetry; apply jsstring_eqb_neq; congruence).
      cbn [matchesCompleting tails existsb closerAtEnd orb jsstring_eqb].
      apply update_throw_intro, getRangeInfo_none. split; [assumption|].
      split; [assumption|]. exists s. split; [assumption | lia].
  - apply update_returns. lia.
  - destruct (convert_deactivates h) as (h2 & E & _). eauto.
Qed.

Lemma onChanged_throws_iff_witness :
  onChanged atLineStart [{| Change.text := [] |}] = Throw atLineStart.
Proof.
  apply (proj1 (onChanged_throws_iff atLineStart atLineStart
                  [{| Change.text := [] |}])).
  split; [reflexivity|]. split; [eexists; eexists; split; reflexivity|].
  split; [discriminate|]. split; [reflexivity|]. split.
  - intros s [<- | []]. reflexivity.
  - exists (Selection.at_ (pos 0 0)). split; [left; reflexivity | reflexivity].
Defined.

(** ** What the entry points leave alone *)

Lemma grewBy_refl (l : list (list Replace)) : grewBy l l.
Proof. exists []. split; [now rewrite app_nil_r|]. split; [cbn; lia | constructor]. Qed.

Lemma grewBy_one (l : list (list Replace)) (b : list Replace) :
  b <> [] -> grewBy l (l ++ [b]).
Proof.
  intros Hb. exists [b]. split; [reflexivity|]. split; [cbn; lia|].
  now repeat constructor.
Qed.

Lemma update_frame (h : TextEditorAbbrevHandler) (incr : Z) :
  let h' := outcome (update h incr) in
  document (editor h') = document (editor h)
  /\ abbreviator h' = abbreviator h
  /\ timers (editor h') = timers (editor h)
  /\ grewBy (edits (editor h)) (edits (editor h')).
Proof.
  unfold update. destruct (getRangeInfo h incr) as [[|ri ris]|].
  - cbn. repeat split. apply grewBy_refl.
  - destruct (updateLoop _ _ _) as [reps spans]. cbn [outcome].
    destruct reps as [|b reps]; cbn.
    + repeat split. apply grewBy_refl.
    + repeat split. apply grewBy_one. discriminate.
  - cbn. repeat split. apply grewBy_refl.
Qed.

Lemma convert_frame (h : TextEditorAbbrevHandler) :
  let h' := outcome (convert h) in
  document (editor h') = document (editor h)
  /\ selections (editor h') = selections (editor h)
  /\ abbreviator h' = abbreviator h
  /\ edits (editor h') = edits (editor h)
  /\ grewBy (timers (editor h)) (timers (editor h')).
Proof.
  unfold convert. destruct (getRangeInfo h 0) as [[|ri ris]|].
  - cbn. repeat split. apply grewBy_refl.
  - cbn [outcome]. destruct (convertLoop (abbreviator h) (ri :: ris)) as [|r rs] eqn:E; cbn.
    + repeat split. apply grewBy_refl.
    + repeat split. apply grewBy_one. discriminate.
  - cbn. repeat split. apply grewBy_refl.
Qed.

(** X11. No entry point of the handler edits the buffer itself, changes the
    configuration or takes back a request: [onChanged] leaves the document
    and the abbreviator as they are and adds at most one batch to the edits
    handed to the editor and at most one to the delayed edits, never an empty
    one. [onSelectionChanged] delays no edit; [convert] hands no edit to the
    editor at once and moves no cursor. *)
Theorem entry_points_only_add_requests (h : TextEditorAbbrevHandler)
    (ev : TextDocumentChangeEvent) :
  (let h' := outcome (onChanged h ev) in
   document (editor h') = document (editor h)
   /\ abbreviator h' = abbreviator h
   /\ grewBy (edits (editor h)) (edits (editor h'))
   /\ grewBy (timers (editor h)) (timers (editor h')))
  /\ (let h' := outcome (onSelectionChanged h) in
      document (editor h') = document (editor h)
      /\ abbreviator h' = abbreviator h
      /\ timers (editor h') = timers (editor h)
      /\ grewBy (edits (editor h)) (edits (editor h')))
  /\ (let h' := outcome (convert h) in
      document (editor h') = document (editor h)
      /\ selections (editor h') = selections (editor h)
      /\ abbreviator h' = abbreviator h
      /\ edits (editor h') = edits (editor h)
      /\ grewBy (timers (editor h)) (timers (editor h'))).
Proof.
  split; [|split; [exact (update_frame h 0) | exact (convert_frame h)]].
  assert (Hupd : forall h0 incr,
             document (editor h0) = document (editor h) ->
             abbreviator h0 = abbreviator h ->
             edits (editor h0) = edits (editor h) ->
             grewBy (timers (editor h)) (timers (editor h0)) ->
             let h' := outcome (update h0 incr) in
             document (editor h') = document (editor h)
             /\ abbreviator h' = abbreviator h
             /\ grewBy (edits (editor h)) (edits (editor h'))
             /\ grewBy (timers (editor h)) (timers (editor h'))).
  { intros h0 incr Hd Ha He Ht.
    destruct (update_frame h0 incr) as (Hd' & Ha' & Ht' & He'). cbv zeta.
    rewrite Hd', Ha', Ht', <- He. now repeat split. }
  assert (Hconv : let h' := outcome (convert h) in
             document (editor h') = document (editor h)
             /\ abbreviator h' = abbreviator h
             /\ grewBy (edits (editor h)) (edits (editor h'))
             /\ grewBy (timers (editor h)) (timers (editor h'))).
  { destruct (convert_frame h) as (Hd & _ & Ha & He & Ht). cbv zeta.
    rewrite He. repeat split; try assumption. apply grewBy_refl. }
  unfold onChanged. destruct ev as [|change rest].
  - cbn. repeat split; apply grewBy_refl.
  - destruct (active h) eqn:Hact; cbn [negb].
    + destruct (jsstring_eqb _ _).
      * destruct (convert_frame h) as (Hd & _ & Ha & He & Ht).
        destruct (convert_deactivates h) as (h1 & E & _).
        rewrite E in *. cbn [outcome] in *.
        apply (Hupd (setActive h1 true) 0%Z); assumption.
      * destruct (matchesCompleting _); [exact Hconv|].
        destruct (jsstring_eqb _ _);
          apply (Hupd h); try reflexivity; apply grewBy_refl.
    + destruct (jsstring_eqb _ _).
      * apply (Hupd (setActive h true) 1%Z); try reflexivity. apply grewBy_refl.
      * cbn. repeat split; apply grewBy_refl.
Qed.

(** ** What [convert] asks for *)

(** The loop of [convert] over reported spans: one replace for each span of
    two or more characters, in the order of the spans. *)
Lemma convertLoop_spans (h : TextEditorAbbrevHandler) (ris : list RangeInfo.t) :
  getRangeInfo h 0 = Some ris ->
  convertLoop (abbreviator h) ris = convertBatch (abbreviator h) ris.
Proof.
  intros E.
  assert (H : forall l, (forall ri, In ri l -> In ri ris) ->
                        convertLoop (abbreviator h) l = convertBatch (abbreviator h) l).
  { induction l as [|ri l IH]; intros Hsub; [reflexivity|].
    unfold convertLoop, convertBatch in *. cbn [flat_map filter].
    rewrite IH by (intros r Hr; apply Hsub; now right).
    destruct (getRangeInfo_span_size h 0 ris ri E (Hsub ri (or_introl eq_refl)))
      as ((suf & Ht) & Hs).
    rewrite Hs. unfold len.
    destruct (Z.ltb_spec (Z.of_nat (length (RangeInfo.text ri))) 2);
      destruct (Nat.leb_spec 2 (length (RangeInfo.text ri))); try lia;
      [reflexivity|].
    cbn [app map]. now rewrite Ht. }
  apply H. auto.
Qed.

(** X12. [convert] always returns, and what it asks for is one delayed batch
    that holds exactly one replace per tracked span longer than the bare
    backslash, in the order of the spans: the range of the span, replaced by
    what [findReplacement] returns for the text after the backslash. A span
    that is the backslash alone gets no replace, and when no span is longer
    nothing is asked for. *)
Theorem convert_batch (h : TextEditorAbbrevHandler) :
  exists ris h',
    getRangeInfo h 0 = Some ris
    /\ convert h = Normal h'
    /\ timers (editor h')
       = timers (editor h)
         ++ match convertBatch (abbreviator h) ris with
            | [] => []
            | r :: batch => [r :: batch]
            end
    /\ length (convertBatch (abbreviator h) ris)
       = length (filter (fun ri => 2 <=? length (RangeInfo.text ri)) ris).
Proof.
  destruct (getRangeInfo_total h 0 (Z.le_refl 0)) as [ris E].
  pose proof (convertLoop_spans h ris E) as Hloop.
  exists ris. unfold convert. rewrite E. destruct ris as [|ri ris'].
  - eexists. split; [reflexivity|]. split; [reflexivity|].
    cbn [deactivate editor setDecorations timers convertBatch filter map].
    split; [now rewrite app_nil_r | reflexivity].
  - rewrite Hloop.
    assert (Hlen : length (convertBatch (abbreviator h) (ri :: ris'))
                   = length (filter (fun ri => 2 <=? length (RangeInfo.text ri))
                                    (ri :: ris')))
      by (unfold convertBatch; apply length_map).
    destruct (convertBatch (abbreviator h) (ri :: ris')) as [|r0 rs].
    + eexists. split; [reflexivity|]. split; [reflexivity|].
      cbn. split; [now rewrite app_nil_r | exact Hlen].
    + eexists. split; [reflexivity|]. split; [reflexivity|].
      cbn [negb Nat.eqb length deactivate editor setDecorations timers setTimeoutEdit].
      split; [reflexivity | exact Hlen].
Qed.

(** Two cursors, the first behind [\a] and the second behind a bare
    backslash: one replace, for the first span only. *)
Example convert_batch_two_spans :
  convert {| active := true;
             editor := {| document := [u "\a \"];
                          selections := [Selection.at_ (pos 0 2);
                                         Selection.at_ (pos 0 4)];
                          decorations := [span 0 0 2; span 0 3 4];
                          edits := [];
                          timers := [] |};
             abbreviator := abbreviatorA |}
  = Normal {| active := false;
              editor := {| document := [u "\a \"];
                           selections := [Selection.at_ (pos 0 2);
                                          Selection.at_ (pos 0 4)];
                           decorations := [];
                           edits := [];
                           timers := [[{| location := span 0 0 2;
                                          value := Some (Str (u "X")) |}]] |};
              abbreviator := abbreviatorA |}.
Proof. reflexivity. Qed.

(** ** What [update] shows *)

Lemma hackyLookup_none (ldr : jsstring) (ri : RangeInfo.t) :
  noBracketKey ldr ri ->
  hackyLookup (hackyReplacements ldr) (RangeInfo.text ri) = None.
Proof.
  intros (H1 & H2 & H3). cbn [hackyReplacements hackyLookup].
  rewrite (proj2 (jsstring_eqb_neq (ldr ++ u "{{") _)) by (intros E; now symmetry in E).
  rewrite (proj2 (jsstring_eqb_neq (ldr ++ u "[[") _)) by (intros E; now symmetry in E).
  now rewrite (proj2 (jsstring_eqb_neq (ldr ++ u "<>") _))
    by (intros E; now symmetry in E).
Qed.

Lemma updateLoop_no_bracket (doc : TextDocument) (ldr : jsstring)
    (ris : list RangeInfo.t) :
  (forall ri, In ri ris -> noBracketKey ldr ri) ->
  updateLoop doc ldr ris = ([], ris).
Proof.
  induction ris as [|ri ris IH]; intros H; [reflexivity|].
  cbn [updateLoop]. rewrite IH by (intros r Hr; apply H; now right).
  now rewrite (hackyLookup_none ldr ri (H ri (or_introl eq_refl))).
Qed.

(** X13. When no tracked span is one of the three bracket keys, [update] only
    redraws: the decorations become the ranges of the spans, one per span in
    cursor order, and the handler stays active with its cursors, its document
    and its edit requests as they were. *)
Theorem update_redecorates (h : TextEditorAbbrevHandler) (incr : Z)
    (ris : list RangeInfo.t) :
  getRangeInfo h incr = Some ris ->
  ris <> [] ->
  (forall ri, In ri ris -> noBracketKey (leader (abbreviator h)) ri) ->
  update h incr
  = Normal {| active := true;
              editor := setDecorations (editor h) (map RangeInfo.range ris);
              abbreviator := abbreviator h |}.
Proof.
  intros E Hne Hno. unfold update. rewrite E.
  destruct ris as [|ri ris']; [congruence|].
  rewrite (updateLoop_no_bracket _ _ _ Hno). cbn [length Nat.eqb negb].
  now rewrite (getRangeInfo_some_active h incr ri ris' E).
Qed.

Lemma update_redecorates_witness :
  update typedZZ 0
  = Normal {| active := true;
              editor := setDecorations (editor typedZZ)
                                       (map RangeInfo.range [spanOf (u "\zz") 3]);
              abbreviator := abbreviator typedZZ |}.
Proof.
  apply (update_redecorates typedZZ 0 [spanOf (u "\zz") 3]).
  - reflexivity.
  - discriminate.
  - intros ri [<- | []]. repeat split; discriminate.
Defined.

Lemma update_active_decorated (h : TextEditorAbbrevHandler) (incr : Z) :
  (0 <= incr)%Z \/ (active h = true -> decorations (editor h) <> []) ->
  active (outcome (update h incr)) = true ->
  decorations (editor (outcome (update h incr))) <> [].
Proof.
  intros Hinv. unfold update.
  destruct (getRangeInfo h incr) as [[|ri ris]|] eqn:E; cbn [outcome].
  - discriminate.
  - pose proof (updateLoop_spans (document (editor h)) (leader (abbreviator h))
                  (ri :: ris)) as Hs.
    destruct (updateLoop _ _ _) as [reps spans]. cbn [snd] in Hs.
    intros _. cbn [editor setDecorations decorations]. rewrite Hs. discriminate.
  - destruct Hinv as [Hge | Hinv]; [|exact Hinv].
    destruct (getRangeInfo_total h incr Hge) as [ris E']. congruence.
Qed.

(** X14. In every reachable state the handler is active exactly when it shows
    a decoration. *)
Theorem active_iff_decorated (h : TextEditorAbbrevHandler) :
  reachable h -> (active h = true <-> decorations (editor h) <> []).
Proof.
  intros R.
  assert (H : undecoratedWhenInactive h
              /\ (active h = true -> decorations (editor h) <> [])).
  { induction R as [e a He | h h' R [IH1 IH2] S].
    - split; [now intros _ | discriminate].
    - split; [exact (step_preserves h h' S IH1)|].
      destruct S as [h e He | h a | h ev | h | h].
      + cbn. rewrite He. exact IH2.
      + exact IH2.
      + unfold onChanged. destruct ev as [|change rest]; [exact IH2|].
        destruct (active h) eqn:Ha; cbn [negb].
        * destruct (jsstring_eqb _ _).
          -- destruct (convert_deactivates h) as (h1 & -> & _).
             apply update_active_decorated. left. lia.
          -- destruct (matchesCompleting _).
             ++ destruct (convert_deactivates h) as (h1 & -> & Hf & _).
                cbn. congruence.
             ++ destruct (jsstring_eqb _ _); apply update_active_decorated;
                  right; intros _; now apply IH2.
        * destruct (jsstring_eqb _ _); [|cbn; congruence].
          apply update_active_decorated. left. lia.
      + apply update_active_decorated. left. lia.
      + destruct (convert_deactivates h) as (h1 & -> & Hf & _). cbn. congruence. }
  destruct H as [H1 H2]. split; [exact H2|].
  intros Hd. destruct (active h) eqn:Ha; [reflexivity|]. now rewrite H1 in Hd.
Qed.

Lemma active_iff_decorated_witness :
  afterBackslash
  = {| active := true;
       editor := {| document := [u "\"];
                    selections := [Selection.at_ (pos 0 0)];
                    decorations := [span 0 0 1];
                    edits := [];
                    timers := [] |};
       abbreviator := abbreviatorA |}
  /\ (active afterBackslash = true <-> decorations (editor afterBackslash) <> [])
  /\ active (outcome (convert afterBackslash)) = false
  /\ (active (outcome (convert afterBackslash)) = true
      <-> decorations (editor (outcome (convert afterBackslash))) <> []).
Proof.
  assert (R : reachable afterBackslash).
  { unfold afterBackslash.
    apply (reachable_step (newTextEditorAbbrevHandler backslashTyped abbreviatorA)).
    - apply reachable_new. reflexivity.
    - apply step_changed. }
  split; [reflexivity|]. split; [exact (active_iff_decorated afterBackslash R)|].
  split; [reflexivity|].
  apply active_iff_decorated. eapply reachable_step; [exact R | apply step_convert].
Defined.

(** X15. While no cursor is moved before its line, [update] on an active
    handler returns, and the handler stays active exactly when every selection
    is empty and the text before some cursor (moved by [incrCursor]) still
    ends with a backslash followed by non-whitespace characters; so a deletion
    that removes the backslash of the only span ends the session. *)
Theorem update_stays_active_iff (h : TextEditorAbbrevHandler) (incr : Z) :
  active h = true ->
  (forall s, In s (selections (editor h)) ->
             (0 <= Z.of_nat (character (Selection.active s)) + incr)%Z) ->
  exists h',
    update h incr = Normal h'
    /\ (active h' = true
        <-> allSelectionsEmpty h
            /\ exists s, In s (selections (editor h))
                         /\ endsWithLeaderSpan
                              (beforeCursor (document (editor h)) s incr)).
Proof.
  intros Ha Hpos. unfold update.
  destruct (getRangeInfo h incr) as [[|ri ris]|] eqn:E.
  - eexists. split; [reflexivity|]. cbn [deactivate active]. split; [discriminate|].
    intros (Hsel & s & Hin & Hs). exfalso.
    rewrite (getRangeInfo_scan h incr Ha Hsel) in E.
    apply In_nth_error in Hin as [i Hn].
    destruct (rangeInfoLoop_complete _ _ _ _ _ E i s Hn Hs) as (ri & [] & _).
  - destruct (updateLoop _ _ _) as [replacements ris'].
    eexists. split; [reflexivity|]. cbn [active]. split; [|intros _; exact Ha].
    intros _.
    assert (Hsel : allSelectionsEmpty h).
    { intros s Hin. destruct (Selection.isEmpty s) eqn:Es; [reflexivity|].
      rewrite (getRangeInfo_range_selection h incr) in E; [discriminate | eauto]. }
    split; [assumption|].
    rewrite (getRangeInfo_scan h incr Ha Hsel) in E.
    destruct (rangeInfoLoop_sound _ _ _ _ _ E ri (or_introl eq_refl))
      as (j & sel & Hn & _ & Hx & _).
    exists sel. split; [eapply nth_error_In; eassumption|].
    apply execLeaderRegex_iff. eauto.
  - exfalso. apply getRangeInfo_none in E as (_ & _ & s & Hin & Hneg).
    specialize (Hpos s Hin). lia.
Qed.

Lemma update_stays_active_iff_witness :
  exists h',
    update spanDeleted (-1) = Normal h'
    /\ (active h' = true
        <-> allSelectionsEmpty spanDeleted
            /\ exists s, In s (selections (editor spanDeleted))
                         /\ endsWithLeaderSpan
                              (beforeCursor (document (editor spanDeleted)) s (-1))).
Proof.
  apply (update_stays_active_iff spanDeleted (-1)).
  - reflexivity.
  - intros s [<- | []]. cbn. lia.
Defined.

(** ** The hover *)

Lemma tr_get_In_pair (o : Translations) (k v : jsstring) :
  tr_get o k = Some (Str v) -> In (k, v) o.
Proof.
  intros H. apply tr_get_str in H.
  induction o as [|[k0 v0] o IH]; cbn [tr_own] in H; [discriminate|].
  destruct (jsstring_eqb k0 k) eqn:E.
  - apply jsstring_eqb_eq in E. injection H as <-. subst. now left.
  - right. now apply IH.
Qed.

(** X16. [getAbbrevations] lists an abbreviation for a symbol exactly when the
    read of the override table at it gives that symbol, or the read of the
    base table at it gives that symbol and the read of the override table at
    it is falsy: the override table owns no non-empty symbol for it, and it
    is not the name of a member of [Object.prototype] unless the override
    table owns it. *)
Theorem getAbbrevations_lists (this : Hover.t) (symbol k : jsstring) :
  In k (Hover.getAbbrevations this symbol)
  <-> tr_get (Hover.customTranslations this) k = Some (Str symbol)
      \/ (truthy (tr_get (Hover.customTranslations this) k) = false
          /\ tr_get (Hover.translations this) k = Some (Str symbol)).
Proof.
  rewrite getAbbrevations_filter, in_app_iff, !filter_In, andb_true_iff,
    negb_true_iff, !strictEq_true.
  split.
  - intros [[_ H] | [_ H]]; [now left | now right].
  - intros [H | [H1 H2]].
    + left. split; [|assumption].
      apply tr_get_str in H. eapply tr_own_some_key; eassumption.
    + right. split; [|now split].
      apply tr_get_str in H2. eapply tr_own_some_key; eassumption.
Qed.

(** The base table [{"constructor": "X", "b": "X"}] under an empty override
    table: the read of the override table at [constructor] finds the function
    [Object], so the hover lists [b] only. *)
Example getAbbrevations_skips_member_name :
  Hover.getAbbrevations
    {| Hover.leader := [backslash];
       Hover.customTranslations := [];
       Hover.translations := [(u "constructor", u "X"); (u "b", u "X")] |}
    (u "X")
  = [u "b"].
Proof. reflexivity. Qed.

Lemma symbolAt_length (doc : TextDocument) (p : Position) :
  length (symbolAt doc p) <= 1.
Proof.
  unfold symbolAt, getText, getTextInLine, translate. cbn [start end_ line character].
  rewrite length_firstn. lia.
Qed.

Lemma sortByLength_nil (l : list jsstring) : sortByLength l = [] -> l = [].
Proof.
  intros H. pose proof (sortByLength_perm l) as P. rewrite H in P.
  now apply Permutation_nil in P.
Qed.

(** X17. The hover reads one UTF-16 code unit of the buffer, so it only ever
    explains a symbol of at most one code unit, over the range of that one
    character and with at least one abbreviation; and over tables whose
    symbols are all two or more code units long it never shows anything. *)
Theorem provideHover_one_code_unit (this : Hover.t) (doc : TextDocument)
    (p : Position) :
  (forall hv,
      Hover.provideHover this doc p = Some hv ->
      length (symbolAt doc p) <= 1
      /\ Hover.range hv = {| start := p; end_ := translate p 1 |}
      /\ exists a, In a (Hover.getAbbrevations this (symbolAt doc p)))
  /\ (longSymbols (Hover.customTranslations this) ->
      longSymbols (Hover.translations this) ->
      Hover.provideHover this doc p = None).
Proof.
  split.
  - intros hv. unfold Hover.provideHover. fold (symbolAt doc p).
    destruct (Hover.sortedAbbrevations this (symbolAt doc p)) as [|a l] eqn:E;
      cbn [length Nat.ltb Nat.leb]; [discriminate|].
    intros [= <-]. split; [apply symbolAt_length|]. split; [reflexivity|].
    exists a. apply (Permutation_in a (sortByLength_perm _)).
    unfold Hover.sortedAbbrevations in E. rewrite E. now left.
  - intros Hc Hb. unfold Hover.provideHover. fold (symbolAt doc p).
    assert (Hnone : Hover.getAbbrevations this (symbolAt doc p) = []).
    { destruct (Hover.getAbbrevations this (symbolAt doc p)) as [|k l] eqn:E;
        [reflexivity|]. exfalso.
      assert (Hin : In k (Hover.getAbbrevations this (symbolAt doc p)))
        by (rewrite E; now left).
      pose proof (symbolAt_length doc p) as Hl.
      rewrite getAbbrevations_filter, in_app_iff, !filter_In, andb_true_iff,
        !strictEq_true in Hin.
      destruct Hin as [[_ H] | [_ [_ H]]]; apply tr_get_In_pair in H.
      - specialize (Hc _ _ H). lia.
      - specialize (Hb _ _ H). lia. }
    unfold Hover.sortedAbbrevations. now rewrite Hnone.
Qed.

Lemma provideHover_one_code_unit_witness :
  Hover.provideHover
    {| Hover.leader := [backslash];
       Hover.customTranslations := [(u "to", u "->")];
       Hover.translations := [(u "iff", u "<->")] |}
    [u "a -> b"] (pos 0 2) = None
  /\ length (symbolAt [u "Z"] (pos 0 0)) <= 1.
Proof.
  split.
  - apply (provideHover_one_code_unit
             {| Hover.leader := [backslash];
                Hover.customTranslations := [(u "to", u "->")];
                Hover.translations := [(u "iff", u "<->")] |}
             [u "a -> b"] (pos 0 2)).
    + intros k v [[= <- <-] | []]. cbn. lia.
    + intros k v [[= <- <-] | []]. cbn. lia.
  - destruct (provideHover_one_code_unit greekHover [u "Z"] (pos 0 0)) as [H _].
    apply (H {| Hover.contents := u "Type Z using \a";
                Hover.range := span 0 0 1 |}).
    reflexivity.
Defined.
